(** * live-f1: the data stream reader and packet framing of [stream.c]

    A shallow embedding of [src/stream.c]: the header macros, the
    length classification done inline in [next_packet], the packet
    assembly loop of [parse_stream_block] and the polling step
    [read_stream], followed by the properties of the framing layer. *)

From Stdlib Require Import ZArith List Lia Bool.
From Stdlib.Strings Require Import Byte.
Import ListNotations.
Open Scope Z_scope.

(** ** Bytes and buffers *)

(** An [unsigned char], promoted to [int] wherever the macros use it. *)
Definition u8 (b : byte) : Z := Z.of_N (Byte.to_N b).

(** [(_p)[i]] on a buffer held as a list of bytes. *)
Definition idx (p : list byte) (i : nat) : Z := u8 (nth i p x00).

(** The 256 values of an [unsigned char], in increasing order. *)
Definition all_bytes : list byte :=
  flat_map (fun n => match Byte.of_N (N.of_nat n) with
                     | Some b => [b]
                     | None => []
                     end) (seq 0 256).

(** ** Header macros (stream.c, lines 41-63) *)

Definition PACKET_CAR (p : list byte) : Z := Z.land (idx p 0) 0x1f.

Definition PACKET_TYPE (p : list byte) : Z :=
  Z.lor (Z.shiftr (idx p 0) 5) (Z.shiftl (Z.land (idx p 1) 0x01) 3).

Definition SHORT_PACKET_DATA (p : list byte) : Z :=
  Z.shiftr (Z.land (idx p 1) 0x0e) 1.

Definition SPECIAL_PACKET_DATA (p : list byte) : Z := Z.shiftr (idx p 1) 1.

Definition LONG_PACKET_LEN (p : list byte) : Z := SPECIAL_PACKET_DATA p + 2.

Definition SHORT_PACKET_NUL (p : list byte) : bool :=
  Z.land (idx p 1) 0xf0 =? 0xf0.

Definition SHORT_PACKET_LEN (p : list byte) : Z :=
  (if SHORT_PACKET_NUL p then 0 else Z.shiftr (idx p 1) 4) + 2.

Definition SPECIAL_PACKET_LEN (p : list byte) : Z := 2.

(** ** Packet type codes (stream.c, lines 66-90) *)

(** [CarPacketType] *)
Definition CAR_POSITION_UPDATE : Z := 0.
Definition CAR_POSITION : Z := 1.
Definition CAR_NUMBER : Z := 2.
Definition CAR_DRIVER : Z := 3.
Definition CAR_POSITION_HISTORY : Z := 15.

(** [SystemPacketType] *)
Definition SYS_EVENT_ID : Z := 1.
Definition SYS_KEY_FRAME : Z := 2.
Definition SYS_UNKNOWN_SPECIAL_A : Z := 3.
Definition SYS_UNKNOWN_LONG_A : Z := 4.
Definition SYS_UNKNOWN_SPECIAL_B : Z := 5.
Definition SYS_UNKNOWN_LONG_B : Z := 6.
Definition SYS_STRANGE_A : Z := 7.
Definition SYS_UNKNOWN_SPECIAL_C : Z := 8.
Definition SYS_UNKNOWN_SHORT_A : Z := 9.
Definition SYS_UNKNOWN_LONG_C : Z := 10.
Definition SYS_UNKNOWN_SHORT_B : Z := 11.
Definition SYS_COPYRIGHT : Z := 12.

(** [MAX_CAR_NUMBER] of packetdef.h. *)
Definition MAX_CAR_NUMBER : Z := 99.

(** ** Length classification (stream.c, lines 302-335)

    The value [next_packet] assigns to [expected] once the two header
    bytes are in [packet]: the two [switch] statements, case by case. *)
Definition packet_expected (packet : list byte) : Z :=
  if negb (PACKET_CAR packet =? 0) then
    let t := PACKET_TYPE packet in
    if t =? CAR_POSITION_UPDATE then SPECIAL_PACKET_LEN packet
    else if t =? CAR_POSITION_HISTORY then LONG_PACKET_LEN packet
    else SHORT_PACKET_LEN packet
  else
    let t := PACKET_TYPE packet in
    if (t =? SYS_UNKNOWN_SPECIAL_A) || (t =? SYS_UNKNOWN_SPECIAL_B)
       || (t =? SYS_UNKNOWN_SPECIAL_C)
    then SPECIAL_PACKET_LEN packet
    else if (t =? SYS_EVENT_ID) || (t =? SYS_KEY_FRAME)
            || (t =? SYS_UNKNOWN_SHORT_A) || (t =? SYS_UNKNOWN_SHORT_B)
    then SHORT_PACKET_LEN packet
    else if t =? SYS_STRANGE_A then 4
    else LONG_PACKET_LEN packet.

(** ** Outcomes

    [BufferOverrun] stands for a [memcpy] that leaves its destination
    or its source, which C leaves undefined; [FuelExhausted] for a
    loop that has not finished within the number of iterations it was
    given. *)
Inductive result (A : Type) : Type :=
| Ok (a : A)
| BufferOverrun
| FuelExhausted.

Arguments Ok {A} a.
Arguments BufferOverrun {A}.
Arguments FuelExhausted {A}.

Definition bind {A B : Type} (m : result A) (k : A -> result B) : result B :=
  match m with
  | Ok a => k a
  | BufferOverrun => BufferOverrun
  | FuelExhausted => FuelExhausted
  end.

Notation "x <- m ;; k" := (bind m (fun x => k))
  (at level 61, m at next level, right associativity).
Notation "' p <- m ;; k" := (bind m (fun x => match x with p => k end))
  (at level 61, p pattern, m at next level, right associativity).

(** ** [size_t] arithmetic: unsigned, 64 bits, wrapping *)

Definition SIZE_MODULUS : Z := 2 ^ 64.
Definition size_add (a b : Z) : Z := (a + b) mod SIZE_MODULUS.
Definition size_sub (a b : Z) : Z := (a - b) mod SIZE_MODULUS.

(** Modelled from the spec: [MIN] is a macro of live-f1.h, which is not
    among the sources; "copy as many bytes as available ... up to" the
    number still wanted is the smaller of the two. *)
Definition MIN (a b : Z) : Z := if a <? b then a else b.

(** [memcpy (dst + off, src, n)]: [n] bytes of [src] over [dst] from
    index [off] on. *)
Definition memcpy (dst : list byte) (off : Z) (src : list byte) (n : Z)
  : option (list byte) :=
  if (0 <=? off) && (0 <=? n)
     && (off + n <=? Z.of_nat (length dst)) && (n <=? Z.of_nat (length src))
  then Some (firstn (Z.to_nat off) dst ++ firstn (Z.to_nat n) src
             ++ skipn (Z.to_nat (off + n)) dst)
  else None.

(** ** The frame assembler (stream.c, lines 252-346) *)

(** The two [static] variables of [parse_stream_block]. *)
Record assembler : Type := {
  packet : list byte;
  packet_len : Z
}.

(** [sizeof (packet)] *)
Definition PACKET_SIZE : nat := 129.

(** Static storage starts zeroed. *)
Definition assembler_init : assembler :=
  {| packet := repeat x00 PACKET_SIZE; packet_len := 0 |}.

(** The input of [next_packet], [*buf] and [*buf_len], is held as the
    list of the bytes not yet consumed: [*buf_len] is its length. *)
Definition buf_len (buf : list byte) : Z := Z.of_nat (length buf).

(** The four statements that occur twice in [next_packet]:
    [memcpy (packet + *packet_len, *buf, needed); *packet_len += needed;
     *buf += needed; *buf_len -= needed;] *)
Definition copy_needed (st : assembler) (buf : list byte) (needed : Z)
  : result (assembler * list byte) :=
  match memcpy (packet st) (packet_len st) buf needed with
  | Some pk =>
      Ok ({| packet := pk; packet_len := size_add (packet_len st) needed |},
          skipn (Z.to_nat needed) buf)
  | None => BufferOverrun
  end.

(** Lines 302-345: the header is in [packet]. *)
Definition next_packet_body (st : assembler) (buf : list byte)
  : result (Z * assembler * list byte) :=
  let expected := packet_expected (packet st) in
  let needed := MIN (buf_len buf) (size_sub expected (packet_len st)) in
  '(st', buf') <- copy_needed st buf needed ;;
  Ok (if packet_len st' =? expected then 1 else 0, st', buf').

(** [next_packet]: the returned [int], the assembler and the rest of
    the input. *)
Definition next_packet (st : assembler) (buf : list byte)
  : result (Z * assembler * list byte) :=
  if packet_len st <? 2 then
    let needed := MIN (buf_len buf) (size_sub 2 (packet_len st)) in
    '(st', buf') <- copy_needed st buf needed ;;
    if packet_len st' <? 2 then Ok (0, st', buf')
    else next_packet_body st' buf'
  else next_packet_body st buf.

(** The body of the loop of [parse_stream_block]: [packet_len = 0;]
    the bytes stay where they are. *)
Definition restart (st : assembler) : assembler :=
  {| packet := packet st; packet_len := 0 |}.

(** What one iteration of the loop of [parse_stream_block] leaves
    behind: the bytes [packet[0 .. packet_len)] at the moment
    [next_packet] returned 1, and the assembler at the end of the loop
    body. *)
Record emission : Type := {
  completed : list byte;
  after : assembler
}.

(** The [while] loop of [parse_stream_block], at most [fuel] calls of
    [next_packet]: the loop goes on while [next_packet] returns
    non-zero. *)
Fixpoint parse_loop (fuel : nat) (st : assembler) (buf : list byte)
  : result (assembler * list emission) :=
  match fuel with
  | O => FuelExhausted
  | S fuel' =>
      '(r, st1, buf1) <- next_packet st buf ;;
      if r =? 0 then Ok (st1, [])
      else
        let st2 := restart st1 in
        '(st3, ems) <- parse_loop fuel' st2 buf1 ;;
        Ok (st3,
            {| completed := firstn (Z.to_nat (packet_len st1)) (packet st1);
               after := st2 |} :: ems)
  end.

(** [parse_stream_block (http_sess, buf, buf_len)]; the session is not
    used by this function.  A call of [next_packet] that completes a
    packet from an empty assembler consumes the two header bytes at
    least, so [buf_len + 2] calls are more than the loop can make
    ([parse_loop_total] below). *)
Definition parse_stream_block (st : assembler) (buf : list byte)
  : result (assembler * list emission) :=
  parse_loop (length buf + 2) st buf.

(** Blocks handed to [parse_stream_block] one after the other. *)
Fixpoint feed (st : assembler) (chunks : list (list byte))
  : result (assembler * list emission) :=
  match chunks with
  | [] => Ok (st, [])
  | c :: cs =>
      '(st1, ems1) <- parse_stream_block st c ;;
      '(st2, ems2) <- feed st1 cs ;;
      Ok (st2, ems1 ++ ems2)
  end.

(** The bytes of the packet under assembly: [packet[0 .. packet_len)]. *)
Definition buffered (st : assembler) : list byte :=
  firstn (Z.to_nat (packet_len st)) (packet st).

(** The states the assembler can be in between two calls: the buffer
    has its declared size and holds no more than the length its header
    announces. *)
Definition wf (st : assembler) : Prop :=
  length (packet st) = PACKET_SIZE /\
  0 <= packet_len st <= packet_expected (packet st).

(** Two runs that cannot be told apart by the packets they complete
    nor by the bytes they keep for the next call. *)
Definition same_framing (r1 r2 : result (assembler * list emission)) : Prop :=
  match r1, r2 with
  | Ok (s1, e1), Ok (s2, e2) =>
      buffered s1 = buffered s2 /\ packet_len s1 = packet_len s2 /\
      map completed e1 = map completed e2
  | BufferOverrun, BufferOverrun => True
  | FuelExhausted, FuelExhausted => True
  | _, _ => False
  end.

(** The packets a run completed, in order. *)
Definition completed_packets (r : result (assembler * list emission))
  : option (list (list byte)) :=
  match r with
  | Ok (_, ems) => Some (map completed ems)
  | _ => None
  end.

(** The data bytes of a packet: what follows its two header bytes. *)
Definition payload (pkt : list byte) : list byte := skipn 2 pkt.

(** ** The stream reader (stream.c, lines 178-241) *)

(** Event bits of <sys/poll.h>, with their Linux values. *)
Definition POLLIN : Z := 0x001.
Definition POLLERR : Z := 0x008.
Definition POLLHUP : Z := 0x010.
Definition POLLNVAL : Z := 0x020.

(** The system calls [read_stream] makes on [sock]. *)
Inductive syscall : Type :=
| sys_poll (events timeout : Z)
| sys_write (data : list byte)
| sys_read (count : Z)
| sys_close.

(** What the system answers during one call of [read_stream]: the
    value of [poll] and the [revents] it leaves, and the values [write]
    and [read] return if they are called, with the bytes [read] puts
    into [buf]. *)
Record environment : Type := {
  poll_ret : Z;
  poll_revents : Z;
  write_ret : Z;
  read_ret : Z;
  read_bytes : list byte
}.

(** The state kept between calls: the [static int timer] and the
    assembler of [parse_stream_block]. *)
Record reader : Type := {
  timer : Z;
  framer : assembler
}.

Definition reader_init : reader :=
  {| timer := 0; framer := assembler_init |}.

(** One call: the returned [int], the state left, the system calls made
    in order and the packets completed. *)
Record outcome : Type := {
  ret : Z;
  next : reader;
  calls : list syscall;
  packets : list emission
}.

(** The [error:] label: [close (sock); return -1;] *)
Definition fail_stream (r : reader) (done : list syscall) : outcome :=
  {| ret := -1; next := r; calls := done ++ [sys_close]; packets := [] |}.

(** [read_stream (http_sess, sock)]: one [poll] of 100 ms, then the
    ping, the hang-up, the read or the error exit. *)
Definition read_stream (r : reader) (e : environment) : result outcome :=
  let polled := [sys_poll POLLIN 100] in
  if poll_ret e <? 0 then Ok (fail_stream r polled)
  else if poll_ret e =? 0 then
    let r1 := {| timer := timer r + 1; framer := framer r |} in
    if timer r <? 10 then
      Ok {| ret := 1; next := r1; calls := polled; packets := [] |}
    else
      let pinged := polled ++ [sys_write [x10]] in
      if write_ret e <? 0 then Ok (fail_stream r1 pinged)
      else Ok {| ret := 1; next := {| timer := 0; framer := framer r |};
                 calls := pinged; packets := [] |}
  else if negb (Z.land (poll_revents e) (Z.lor POLLERR POLLNVAL) =? 0) then
    Ok (fail_stream r polled)
  else if negb (Z.land (poll_revents e) POLLHUP =? 0) then
    Ok {| ret := 0; next := r; calls := polled ++ [sys_close]; packets := [] |}
  else if negb (Z.land (poll_revents e) POLLIN =? 0) then
    let did_read := polled ++ [sys_read 512] in
    if read_ret e <? 0 then Ok (fail_stream r did_read)
    else if read_ret e =? 0 then
      Ok {| ret := 0; next := r; calls := did_read ++ [sys_close];
            packets := [] |}
    else
      '(st, ems) <- parse_stream_block (framer r)
                      (firstn (Z.to_nat (read_ret e)) (read_bytes e)) ;;
      Ok {| ret := read_ret e; next := {| timer := 0; framer := st |};
            calls := did_read; packets := ems |}
  else
    Ok {| ret := poll_ret e; next := {| timer := 0; framer := framer r |};
          calls := polled; packets := [] |}.

(** Consecutive calls of [read_stream], one per answer of the system,
    as the caller's loop makes them. *)
Fixpoint poll_loop (r : reader) (es : list environment)
  : result (reader * list syscall) :=
  match es with
  | [] => Ok (r, [])
  | e :: es' =>
      o <- read_stream r e ;;
      '(r', cs) <- poll_loop (next o) es' ;;
      Ok (r', calls o ++ cs)
  end.

(** The writes among the system calls made. *)
Definition is_write (c : syscall) : bool :=
  match c with sys_write _ => true | _ => false end.

Definition is_close (c : syscall) : bool :=
  match c with sys_close => true | _ => false end.

(** An answer of the system with nothing to read: [poll] times out, and
    a [write] succeeds. *)
Definition idle (e : environment) : Prop :=
  poll_ret e = 0 /\ 0 <= write_ret e.

(** [poll] times out and a [write] would succeed. *)
Definition timeout_env : environment :=
  {| poll_ret := 0; poll_revents := 0; write_ret := 1;
     read_ret := 0; read_bytes := [] |}.

(** [poll] reports a hang-up and nothing else. *)
Definition hangup_env : environment :=
  {| poll_ret := 1; poll_revents := POLLHUP; write_ret := 1;
     read_ret := 0; read_bytes := [] |}.

(** [poll] reports input, and [read] then returns 0. *)
Definition end_of_file_env : environment :=
  {| poll_ret := 1; poll_revents := POLLIN; write_ret := 1;
     read_ret := 0; read_bytes := [] |}.

(** [poll] reports a hang-up together with an error, as it does for a
    connection that was reset. *)
Definition hangup_error_env : environment :=
  {| poll_ret := 1; poll_revents := Z.lor POLLHUP POLLERR; write_ret := 1;
     read_ret := 0; read_bytes := [] |}.

(** ** Packets in a byte stream *)

(** [MAX_PACKET_LEN] of packetdef.h: the most payload bytes a packet
    has. *)
Definition MAX_PACKET_LEN : Z := 127.

(** A byte sequence that is exactly as long as the length
    [next_packet] computes from its first two bytes. *)
Definition complete_packet (p : list byte) : Prop :=
  Z.of_nat (length p) = packet_expected p.

(** A byte sequence on which [next_packet] returns 0: the header is
    not all there, or there are fewer bytes than the header asks for. *)
Definition partial_packet (l : list byte) : Prop :=
  Z.of_nat (length l) < 2 \/ Z.of_nat (length l) < packet_expected l.

(** ** A sequence of calls of [read_stream] *)

(** The block a call hands to [parse_stream_block] when [read]
    returned data: [buf[0 .. ret)]. *)
Definition block_read (e : environment) : list byte :=
  firstn (Z.to_nat (read_ret e)) (read_bytes e).

(** [poll] reports input and nothing else, and [read] returns data. *)
Definition data_arrives (e : environment) : bool :=
  (0 <? poll_ret e)
  && (Z.land (poll_revents e) (Z.lor POLLERR POLLNVAL) =? 0)
  && (Z.land (poll_revents e) POLLHUP =? 0)
  && negb (Z.land (poll_revents e) POLLIN =? 0)
  && (0 <? read_ret e).

(** [poll] times out and a [write], if made, succeeds. *)
Definition times_out (e : environment) : bool :=
  (poll_ret e =? 0) && (0 <=? write_ret e).

(** [poll] reports input and [read] returns the bytes [bytes]. *)
Definition data_env (bytes : list byte) : environment :=
  {| poll_ret := 1; poll_revents := POLLIN; write_ret := 1;
     read_ret := Z.of_nat (length bytes); read_bytes := bytes |}.

(** Consecutive calls of [read_stream] again, this time with the
    packets they complete. *)
Fixpoint stream_loop (r : reader) (es : list environment)
  : result (reader * list emission) :=
  match es with
  | [] => Ok (r, [])
  | e :: es' =>
      o <- read_stream r e ;;
      '(r', ems) <- stream_loop (next o) es' ;;
      Ok (r', packets o ++ ems)
  end.

(** The values the consecutive calls of [read_stream] return, in
    order: what the caller sees of a connection. *)
Fixpoint poll_rets (r : reader) (es : list environment) : result (list Z) :=
  match es with
  | [] => Ok []
  | e :: es' =>
      o <- read_stream r e ;;
      rs <- poll_rets (next o) es' ;;
      Ok (ret o :: rs)
  end.

(** A system call of [read_stream] fails or [poll] flags the socket:
    [poll] fails, or the ping cannot be written, or [poll] reports
    [POLLERR] or [POLLNVAL], or the [read] made for [POLLIN] fails. *)
Definition io_failure (r : reader) (e : environment) : Prop :=
  poll_ret e < 0 \/
  (poll_ret e = 0 /\ 10 <= timer r /\ write_ret e < 0) \/
  (0 < poll_ret e /\
   (Z.land (poll_revents e) (Z.lor POLLERR POLLNVAL) <> 0 \/
    (Z.land (poll_revents e) POLLHUP = 0 /\
     Z.land (poll_revents e) POLLIN <> 0 /\ read_ret e < 0))).

(** ** Opening the connection (stream.c, lines 108-164) *)

(** The character of a decimal digit. *)
Definition digit_char (d : Z) : byte :=
  nth (Z.to_nat d) [x30; x31; x32; x33; x34; x35; x36; x37; x38; x39] x30.

(** The decimal digits of [n], most significant first; one digit per
    unit of [fuel] at most. *)
Fixpoint decimal (fuel : nat) (n : Z) : list byte :=
  match fuel with
  | O => []
  | S fuel' =>
      if n <? 10 then [digit_char n]
      else decimal fuel' (n / 10) ++ [digit_char (n mod 10)]
  end.

(** What [sprintf (service, "%hu", port)] writes before the
    terminating 0: the argument converted to [unsigned short], in
    decimal.  A number has no more decimal digits than it has bits. *)
Definition sprintf_hu (port : Z) : list byte :=
  let n := port mod 65536 in
  decimal (S (Z.to_nat (Z.log2 n))) n.

(** [sizeof (service)] *)
Definition SERVICE_SIZE : Z := 6.

(** The number a string of decimal digits denotes. *)
Definition decimal_value (l : list byte) : Z :=
  fold_left (fun acc c => acc * 10 + (u8 c - 48)) l 0.

(** One entry of the list [getaddrinfo] returns, with what the system
    answers when it is tried: the values of [socket] and of [connect]. *)
Record candidate : Type := {
  socket_ret : Z;
  connect_ret : Z
}.

(** The answer of [getaddrinfo]: its value and the list [res]. *)
Record resolution : Type := {
  getaddrinfo_ret : Z;
  res : list candidate
}.

(** The calls [open_stream] makes. *)
Inductive netcall : Type :=
| net_getaddrinfo (hostname service : list byte)
| net_socket (fd : Z)
| net_connect (fd : Z)
| net_close (fd : Z)
| net_freeaddrinfo.

(** The [for] loop over the addresses: the value of [sock] when the
    loop is left, and the calls made. *)
Fixpoint connect_loop (sock : Z) (addrs : list candidate)
  : Z * list netcall :=
  match addrs with
  | [] => (sock, [])
  | a :: rest =>
      let s := socket_ret a in
      if s <? 0 then
        let '(r, cs) := connect_loop s rest in (r, net_socket s :: cs)
      else if connect_ret a <? 0 then
        let '(r, cs) := connect_loop (-1) rest in
        (r, net_socket s :: net_connect s :: net_close s :: cs)
      else (s, [net_socket s; net_connect s])
  end.

(** [open_stream (hostname, port)]: the returned [int] and the calls
    made.  The messages to [stderr] and to [info] are left out. *)
Definition open_stream (hostname : list byte) (port : Z) (env : resolution)
  : Z * list netcall :=
  let service := sprintf_hu port in
  if negb (getaddrinfo_ret env =? 0) then
    (-1, [net_getaddrinfo hostname service])
  else
    let '(sock, cs) := connect_loop (-1) (res env) in
    if sock <? 0 then
      (-1, net_getaddrinfo hostname service :: cs ++ [net_freeaddrinfo])
    else (sock, net_getaddrinfo hostname service :: cs).

(** A candidate on which both [socket] and [connect] succeed. *)
Definition connects (a : candidate) : bool :=
  (0 <=? socket_ret a) && (0 <=? connect_ret a).

Definition is_socket (c : netcall) : bool :=
  match c with net_socket _ => true | _ => false end.

Definition is_freeaddrinfo (c : netcall) : bool :=
  match c with net_freeaddrinfo => true | _ => false end.

(** The descriptors left open by a sequence of calls, given those
    [held] before: [socket] opens the one it returns, [close] closes
    one. *)
Fixpoint open_descriptors (held : list Z) (cs : list netcall) : list Z :=
  match cs with
  | [] => held
  | net_socket fd :: cs' =>
      open_descriptors (if fd <? 0 then held else fd :: held) cs'
  | net_close fd :: cs' => open_descriptors (remove Z.eq_dec fd held) cs'
  | _ :: cs' => open_descriptors held cs'
  end.

(** ** Facts about bytes *)

Lemma all_bytes_complete (b : byte) : existsb (Byte.eqb b) all_bytes = true.
Proof. destruct b; vm_compute; reflexivity. Qed.

Lemma in_all_bytes (b : byte) : In b all_bytes.
Proof.
  pose proof (all_bytes_complete b) as H.
  apply existsb_exists in H. destruct H as [c [Hin Heq]].
  apply Byte.byte_dec_bl in Heq. now subst.
Qed.

(** A decidable property of one byte holds of every byte once it has
    been checked on the 256 of them. *)
Lemma byte_forall (P : byte -> bool) :
  forallb P all_bytes = true -> forall b, P b = true.
Proof.
  intros H b. rewrite forallb_forall in H. apply H, in_all_bytes.
Qed.

(** The same for a pair of bytes: 65536 cases. *)
Lemma byte_forall2 (P : byte -> byte -> bool) :
  forallb (fun a => forallb (P a) all_bytes) all_bytes = true ->
  forall a b, P a b = true.
Proof.
  intros H a b.
  apply (byte_forall (P a)). revert a. apply byte_forall. exact H.
Qed.

Lemma u8_range (b : byte) : 0 <= u8 b <= 255.
Proof.
  unfold u8. pose proof (Byte.to_N_bounded b). lia.
Qed.

(** ** The header fields and the expected length *)

(** The macros read the first two bytes of the buffer only. *)
Lemma idx_pair (p : list byte) :
  idx p 0 = idx [nth 0 p x00; nth 1 p x00] 0 /\
  idx p 1 = idx [nth 0 p x00; nth 1 p x00] 1.
Proof. split; reflexivity. Qed.

Lemma packet_expected_idx (p q : list byte) :
  idx p 0 = idx q 0 -> idx p 1 = idx q 1 ->
  packet_expected p = packet_expected q.
Proof.
  intros H0 H1.
  unfold packet_expected, PACKET_CAR, PACKET_TYPE, SPECIAL_PACKET_LEN,
    LONG_PACKET_LEN, SHORT_PACKET_LEN, SHORT_PACKET_NUL, SPECIAL_PACKET_DATA.
  now rewrite H0, H1.
Qed.

Lemma packet_expected_pair (p : list byte) :
  packet_expected p = packet_expected [nth 0 p x00; nth 1 p x00].
Proof. apply packet_expected_idx; apply idx_pair. Qed.

Lemma PACKET_CAR_pair (p : list byte) :
  PACKET_CAR p = PACKET_CAR [nth 0 p x00; nth 1 p x00].
Proof. reflexivity. Qed.

Lemma PACKET_TYPE_pair (p : list byte) :
  PACKET_TYPE p = PACKET_TYPE [nth 0 p x00; nth 1 p x00].
Proof. reflexivity. Qed.

Lemma idx_range (p : list byte) (i : nat) : 0 <= idx p i <= 255.
Proof. apply u8_range. Qed.

Lemma PACKET_CAR_range (p : list byte) : 0 <= PACKET_CAR p <= 31.
Proof.
  rewrite PACKET_CAR_pair.
  generalize (nth 0 p x00) (nth 1 p x00). intros a b.
  pose proof (byte_forall2
    (fun a b => (0 <=? PACKET_CAR [a; b]) && (PACKET_CAR [a; b] <=? 31))) as H.
  assert (Hall : forallb (fun a => forallb (fun b =>
            (0 <=? PACKET_CAR [a; b]) && (PACKET_CAR [a; b] <=? 31))
            all_bytes) all_bytes = true) by (vm_compute; reflexivity).
  specialize (H Hall a b). apply andb_prop in H. lia.
Qed.

Lemma PACKET_TYPE_range (p : list byte) : 0 <= PACKET_TYPE p <= 15.
Proof.
  rewrite PACKET_TYPE_pair.
  generalize (nth 0 p x00) (nth 1 p x00). intros a b.
  pose proof (byte_forall2
    (fun a b => (0 <=? PACKET_TYPE [a; b]) && (PACKET_TYPE [a; b] <=? 15))) as H.
  assert (Hall : forallb (fun a => forallb (fun b =>
            (0 <=? PACKET_TYPE [a; b]) && (PACKET_TYPE [a; b] <=? 15))
            all_bytes) all_bytes = true) by (vm_compute; reflexivity).
  specialize (H Hall a b). apply andb_prop in H. lia.
Qed.

Lemma LONG_PACKET_LEN_range (p : list byte) : 2 <= LONG_PACKET_LEN p <= 129.
Proof.
  unfold LONG_PACKET_LEN, SPECIAL_PACKET_DATA.
  pose proof (idx_range p 1) as H.
  rewrite Z.shiftr_div_pow2 by lia. change (2 ^ 1) with 2.
  assert (0 <= idx p 1 / 2 < 128).
  { split; [apply Z.div_pos; lia | apply Z.div_lt_upper_bound; lia]. }
  lia.
Qed.

Lemma SHORT_PACKET_LEN_range (p : list byte) : 2 <= SHORT_PACKET_LEN p <= 17.
Proof.
  unfold SHORT_PACKET_LEN.
  pose proof (idx_range p 1) as H.
  destruct (SHORT_PACKET_NUL p); [lia|].
  rewrite Z.shiftr_div_pow2 by lia. change (2 ^ 4) with 16.
  assert (0 <= idx p 1 / 16 < 16).
  { split; [apply Z.div_pos; lia | apply Z.div_lt_upper_bound; lia]. }
  lia.
Qed.

Lemma packet_expected_range (p : list byte) :
  2 <= packet_expected p <= 129.
Proof.
  pose proof (LONG_PACKET_LEN_range p).
  pose proof (SHORT_PACKET_LEN_range p).
  unfold packet_expected, SPECIAL_PACKET_LEN.
  repeat match goal with
         | |- context [if ?c then _ else _] => destruct c
         end; lia.
Qed.

(** The expected length is a function of the first two bytes held. *)
Lemma packet_expected_firstn (p : list byte) (n : nat) :
  (2 <= n)%nat -> packet_expected (firstn n p) = packet_expected p.
Proof.
  intros Hn. apply packet_expected_idx; unfold idx; rewrite nth_firstn.
  - destruct (Nat.ltb_spec 0 n); [reflexivity | lia].
  - destruct (Nat.ltb_spec 1 n); [reflexivity | lia].
Qed.

Lemma packet_expected_app (p q : list byte) :
  (2 <= length p)%nat -> packet_expected (p ++ q) = packet_expected p.
Proof.
  intros Hp. apply packet_expected_idx; unfold idx;
    rewrite app_nth1 by lia; reflexivity.
Qed.

(** ** The assembler, one call at a time *)

Lemma wf_buffered_length (st : assembler) :
  wf st -> Z.of_nat (length (buffered st)) = packet_len st.
Proof.
  intros [Hlen Hpl]. pose proof (packet_expected_range (packet st)).
  unfold buffered. rewrite length_firstn, Hlen. unfold PACKET_SIZE. lia.
Qed.

Lemma packet_expected_buffered (st : assembler) :
  2 <= packet_len st ->
  packet_expected (buffered st) = packet_expected (packet st).
Proof.
  intros H. apply packet_expected_firstn. lia.
Qed.

Lemma MIN_min (a b : Z) : MIN a b = Z.min a b.
Proof. unfold MIN. destruct (Z.ltb_spec a b); lia. Qed.

(** The copy of [k] bytes appends them to the bytes held and leaves
    the rest of the input. *)
Lemma copy_needed_ok (st : assembler) (buf : list byte) (k : nat) :
  length (packet st) = PACKET_SIZE ->
  0 <= packet_len st ->
  packet_len st + Z.of_nat k <= Z.of_nat PACKET_SIZE ->
  (k <= length buf)%nat ->
  exists st',
    copy_needed st buf (Z.of_nat k) = Ok (st', skipn k buf) /\
    packet_len st' = packet_len st + Z.of_nat k /\
    length (packet st') = PACKET_SIZE /\
    buffered st' = buffered st ++ firstn k buf.
Proof.
  intros Hlen Hpl Hfit Hk.
  unfold copy_needed, memcpy. rewrite Hlen.
  replace ((0 <=? packet_len st) && (0 <=? Z.of_nat k)
           && (packet_len st + Z.of_nat k <=? Z.of_nat PACKET_SIZE)
           && (Z.of_nat k <=? Z.of_nat (length buf))) with true
    by (symmetry; repeat (apply andb_true_intro; split); apply Z.leb_le; lia).
  rewrite Nat2Z.id.
  assert (Hadd : size_add (packet_len st) (Z.of_nat k)
                 = packet_len st + Z.of_nat k).
  { unfold size_add, SIZE_MODULUS. apply Z.mod_small.
    unfold PACKET_SIZE in Hfit. lia. }
  eexists. split; [reflexivity|]. cbn [packet packet_len]. rewrite Hadd.
  assert (Hl1 : length (firstn (Z.to_nat (packet_len st)) (packet st))
                = Z.to_nat (packet_len st)).
  { rewrite length_firstn, Hlen. lia. }
  assert (Hl2 : length (firstn k buf) = k).
  { rewrite length_firstn. lia. }
  split; [reflexivity|]. split.
  - rewrite !length_app, Hl1, Hl2, length_skipn, Hlen. lia.
  - unfold buffered. cbn [packet packet_len].
    rewrite app_assoc.
    replace (Z.to_nat (packet_len st + Z.of_nat k))
      with (length (firstn (Z.to_nat (packet_len st)) (packet st)
                    ++ firstn k buf) + 0)%nat
      by (rewrite length_app, Hl1, Hl2; lia).
    rewrite firstn_app_2. cbn [firstn]. now rewrite app_nil_r.
Qed.

(** With the header in the buffer, [next_packet] takes what the packet
    still lacks and says whether that completed it. *)
Lemma next_packet_body_spec (st : assembler) (buf : list byte) :
  wf st -> 2 <= packet_len st ->
  let all := buffered st ++ buf in
  let E := packet_expected all in
  exists st', wf st' /\
    if Z.of_nat (length all) <? E
    then next_packet_body st buf = Ok (0, st', []) /\ buffered st' = all
    else next_packet_body st buf
         = Ok (1, st', skipn (Z.to_nat (E - packet_len st)) buf)
         /\ buffered st' = firstn (Z.to_nat E) all
         /\ packet_len st' = E.
Proof.
  intros Hwf H2 all E.
  pose proof (wf_buffered_length st Hwf) as HB.
  destruct Hwf as [Hlen Hpl].
  assert (HE : E = packet_expected (packet st)).
  { unfold E, all. rewrite packet_expected_app by lia.
    now apply packet_expected_buffered. }
  pose proof (packet_expected_range (packet st)) as HR.
  rewrite <- HE in *.
  unfold next_packet_body. rewrite <- HE. rewrite MIN_min.
  assert (Hsub : size_sub E (packet_len st) = E - packet_len st).
  { unfold size_sub, SIZE_MODULUS. apply Z.mod_small. lia. }
  rewrite Hsub.
  set (k := Nat.min (length buf) (Z.to_nat (E - packet_len st))).
  replace (Z.min (buf_len buf) (E - packet_len st)) with (Z.of_nat k)
    by (unfold k, buf_len; lia).
  destruct (copy_needed_ok st buf k) as (st' & Hc & Hpl' & Hlen' & Hb');
    [assumption | lia | unfold PACKET_SIZE, k; lia | unfold k; lia |].
  rewrite Hc. cbn [bind].
  assert (Hwf' : wf st').
  { split; [assumption|].
    rewrite <- (packet_expected_buffered st') by lia.
    rewrite Hb', packet_expected_app by lia.
    rewrite (packet_expected_buffered st) by lia.
    rewrite <- HE. unfold k in Hpl'. lia. }
  exists st'. split; [assumption|].
  assert (Hall : Z.of_nat (length all) = packet_len st + buf_len buf).
  { unfold all, buf_len. rewrite length_app. lia. }
  unfold buf_len in Hall.
  destruct (Z.ltb_spec (Z.of_nat (length all)) E) as [Hlt | Hge].
  - assert (Hk : k = length buf) by (unfold k; lia).
    rewrite Hk in *.
    destruct (Z.eqb_spec (packet_len st') E); [lia|].
    rewrite skipn_all. split; [reflexivity|].
    rewrite Hb', firstn_all. reflexivity.
  - assert (Hk : k = Z.to_nat (E - packet_len st)) by (unfold k; lia).
    rewrite Hk in *.
    destruct (Z.eqb_spec (packet_len st') E); [|lia].
    split; [reflexivity|]. split; [|assumption].
    rewrite Hb'. unfold all. rewrite firstn_app.
    rewrite (firstn_all2 (n := Z.to_nat E)) by lia.
    f_equal. f_equal. lia.
Qed.

(** One call of [next_packet] from a well-formed state: with the bytes
    held and the input put end to end, either they fall short of a
    packet and are all kept, or the packet is cut off the front and the
    rest of the input is left. *)
Lemma next_packet_spec (st : assembler) (buf : list byte) :
  wf st ->
  let all := buffered st ++ buf in
  let E := packet_expected all in
  let n := Z.of_nat (length all) in
  exists st', wf st' /\
    if (n <? 2) || (n <? E)
    then next_packet st buf = Ok (0, st', []) /\ buffered st' = all
    else next_packet st buf
         = Ok (1, st', skipn (Z.to_nat (E - packet_len st)) buf)
         /\ buffered st' = firstn (Z.to_nat E) all
         /\ packet_len st' = E.
Proof.
  intros Hwf all E n.
  pose proof (wf_buffered_length st Hwf) as HB.
  assert (Hn : n = packet_len st + buf_len buf).
  { unfold n, all, buf_len. rewrite length_app. lia. }
  unfold buf_len in Hn.
  unfold next_packet.
  destruct (Z.ltb_spec (packet_len st) 2) as [Hshort | Hhdr].
  - (* the header is still incomplete *)
    destruct Hwf as [Hlen Hpl].
    rewrite MIN_min.
    assert (Hsub : size_sub 2 (packet_len st) = 2 - packet_len st).
    { unfold size_sub, SIZE_MODULUS. apply Z.mod_small. lia. }
    rewrite Hsub.
    set (k := Nat.min (length buf) (Z.to_nat (2 - packet_len st))).
    replace (Z.min (buf_len buf) (2 - packet_len st)) with (Z.of_nat k)
      by (unfold k, buf_len; lia).
    destruct (copy_needed_ok st buf k) as (st1 & Hc & Hpl1 & Hlen1 & Hb1);
      [assumption | lia | unfold PACKET_SIZE, k; lia | unfold k; lia |].
    rewrite Hc. cbn [bind].
    pose proof (packet_expected_range (packet st1)) as HR1.
    assert (Hwf1 : wf st1) by (split; [assumption | unfold k in Hpl1; lia]).
    destruct (Z.ltb_spec (packet_len st1) 2) as [Hstill | Hgot].
    + assert (Hk : k = length buf) by (unfold k in *; lia).
      rewrite Hk in *.
      destruct (Z.ltb_spec n 2) as [_ | Hn2]; [|lia].
      cbn [orb]. exists st1. split; [assumption|].
      rewrite skipn_all. split; [reflexivity|].
      rewrite Hb1, firstn_all. reflexivity.
    + assert (Hk : k = Z.to_nat (2 - packet_len st)) by (unfold k in *; lia).
      destruct (Z.ltb_spec n 2) as [Hn2 | _]; [unfold k in *; lia|].
      cbn [orb].
      destruct (next_packet_body_spec st1 (skipn k buf) Hwf1 Hgot)
        as (st' & Hwf' & Hres).
      assert (Hsame : buffered st1 ++ skipn k buf = all).
      { rewrite Hb1, <- app_assoc, firstn_skipn. reflexivity. }
      rewrite Hsame in Hres. fold E in Hres. fold n in Hres.
      exists st'. split; [assumption|].
      destruct (n <? E); [exact Hres|].
      destruct Hres as (Hr & Hb' & Hpl'). split; [|split; assumption].
      rewrite Hr, skipn_skipn. do 3 f_equal.
      pose proof (packet_expected_range all). fold E in H. lia.
  - destruct (Z.ltb_spec n 2) as [Hn2 | _]; [lia|]. cbn [orb].
    apply (next_packet_body_spec st buf Hwf Hhdr).
Qed.

(** ** The loop of [parse_stream_block] *)

Lemma wf_restart (st : assembler) : wf st -> wf (restart st).
Proof.
  intros [Hlen _]. split; [exact Hlen|]. cbn.
  pose proof (packet_expected_range (packet st)). lia.
Qed.

Lemma buffered_restart (st : assembler) : buffered (restart st) = [].
Proof. reflexivity. Qed.

Lemma wf_assembler_init : wf assembler_init.
Proof.
  split; [reflexivity|]. change (packet_len assembler_init) with 0.
  pose proof (packet_expected_range (packet assembler_init)). lia.
Qed.

(** The loop ends, and leaves a well-formed assembler; after every
    packet it completed, the assembler was well-formed and empty. *)
Lemma parse_loop_total (fuel : nat) :
  forall (st : assembler) (buf : list byte),
    wf st ->
    (length buf + (if (packet_len st =? 0)%Z then 1 else 2) <= fuel)%nat ->
    exists st' ems,
      parse_loop fuel st buf = Ok (st', ems) /\ wf st' /\
      Forall (fun e => wf (after e) /\ packet_len (after e) = 0) ems.
Proof.
  induction fuel as [|fuel IH]; intros st buf Hwf Hfuel.
  - destruct (packet_len st =? 0); lia.
  - cbn [parse_loop].
    pose proof (wf_buffered_length st Hwf) as HB.
    destruct (next_packet_spec st buf Hwf) as (st1 & Hwf1 & Hres).
    cbv zeta in Hres.
    pose proof (packet_expected_range (buffered st ++ buf)) as HR.
    rewrite length_app in Hres.
    destruct ((Z.of_nat (length (buffered st) + length buf) <? 2)
              || (Z.of_nat (length (buffered st) + length buf)
                  <? packet_expected (buffered st ++ buf))) eqn:Hc.
    + destruct Hres as [Hr _]. rewrite Hr. cbn.
      exists st1, []. auto.
    + destruct Hres as (Hr & _ & _). rewrite Hr. cbn [bind Z.eqb].
      apply orb_false_elim in Hc. destruct Hc as [Hc1 Hc2].
      apply Z.ltb_ge in Hc1, Hc2.
      destruct (IH (restart st1)
                  (skipn (Z.to_nat (packet_expected (buffered st ++ buf)
                                    - packet_len st)) buf))
        as (st3 & ems & Hl & Hwf3 & Hems).
      * now apply wf_restart.
      * rewrite length_skipn. cbn [restart packet_len Z.eqb].
        destruct (Z.eqb_spec (packet_len st) 0); lia.
      * rewrite Hl. cbn [bind].
        eexists _, _. split; [reflexivity|]. split; [assumption|].
        constructor; [|assumption]. cbn [after].
        split; [now apply wf_restart | reflexivity].
Qed.

Lemma parse_stream_block_total (st : assembler) (buf : list byte) :
  wf st ->
  exists st' ems,
    parse_stream_block st buf = Ok (st', ems) /\ wf st' /\
    Forall (fun e => wf (after e) /\ packet_len (after e) = 0) ems.
Proof.
  intros Hwf. apply parse_loop_total; [assumption|].
  destruct (packet_len st =? 0); lia.
Qed.

Lemma feed_total (chunks : list (list byte)) :
  forall st, wf st ->
    exists st' ems, feed st chunks = Ok (st', ems) /\ wf st'.
Proof.
  induction chunks as [|c cs IH]; intros st Hwf.
  - exists st, []. auto.
  - cbn [feed].
    destruct (parse_stream_block_total st c Hwf) as (st1 & e1 & H1 & Hwf1 & _).
    destruct (IH st1 Hwf1) as (st2 & e2 & H2 & Hwf2).
    rewrite H1. cbn [bind]. rewrite H2. cbn [bind].
    eexists _, _. split; [reflexivity | assumption].
Qed.

(** What the loop does depends on the bytes held, not on what else the
    buffer contains. *)
Lemma parse_loop_indep (fuel : nat) :
  forall (s t : assembler) (buf : list byte),
    wf s -> wf t -> buffered s = buffered t ->
    same_framing (parse_loop fuel s buf) (parse_loop fuel t buf).
Proof.
  induction fuel as [|fuel IH]; intros s t buf Hs Ht Hb.
  - exact I.
  - cbn [parse_loop].
    pose proof (wf_buffered_length s Hs) as HBs.
    pose proof (wf_buffered_length t Ht) as HBt.
    assert (Hpl : packet_len s = packet_len t) by (rewrite Hb in HBs; lia).
    destruct (next_packet_spec s buf Hs) as (s1 & Hs1 & Hrs).
    destruct (next_packet_spec t buf Ht) as (t1 & Ht1 & Hrt).
    cbv zeta in Hrs, Hrt. rewrite <- Hb, <- Hpl in Hrt.
    destruct ((Z.of_nat (length (buffered s ++ buf)) <? 2)
              || (Z.of_nat (length (buffered s ++ buf))
                  <? packet_expected (buffered s ++ buf))).
    + destruct Hrs as [Hr1 Hb1], Hrt as [Hr2 Hb2].
      rewrite Hr1, Hr2. cbn.
      pose proof (wf_buffered_length s1 Hs1).
      pose proof (wf_buffered_length t1 Ht1).
      rewrite Hb1, Hb2 in *. repeat split; lia.
    + destruct Hrs as (Hr1 & Hb1 & Hp1), Hrt as (Hr2 & Hb2 & Hp2).
      rewrite Hr1, Hr2. cbn [bind Z.eqb].
      specialize (IH (restart s1) (restart t1)
                    (skipn (Z.to_nat (packet_expected (buffered s ++ buf)
                                      - packet_len s)) buf)
                    (wf_restart _ Hs1) (wf_restart _ Ht1) eq_refl).
      destruct (parse_loop fuel _ _) as [[s3 e3]| |];
        destruct (parse_loop fuel _ _) as [[t3 e3']| |];
        cbn [bind same_framing] in *; try exact IH.
      destruct IH as (? & ? & ?). repeat split; try assumption.
      cbn [map completed]. f_equal; [|assumption].
      change (buffered s1 = buffered t1). now rewrite Hb1, Hb2.
Qed.

(** ** Properties of the length classification *)

(** C2 — Buffer bound. For each of the 65536 pairs of header bytes the
    length [next_packet] expects lies between 2 and 129, the size of
    [packet]; and whatever blocks are handed to [parse_stream_block],
    starting from the zeroed static state, no [memcpy] leaves the
    buffer: every run ends normally, with at most 129 bytes held in a
    buffer of 129. *)
Theorem expected_length_within_buffer :
  (forall (b0 b1 : byte) (rest : list byte),
      2 <= packet_expected (b0 :: b1 :: rest) <= Z.of_nat PACKET_SIZE) /\
  (forall chunks : list (list byte),
      exists st ems,
        feed assembler_init chunks = Ok (st, ems) /\
        length (packet st) = PACKET_SIZE /\
        0 <= packet_len st <= Z.of_nat PACKET_SIZE).
Proof.
  split.
  - intros b0 b1 rest. apply packet_expected_range.
  - intros chunks.
    destruct (feed_total chunks assembler_init wf_assembler_init)
      as (st & ems & Hfeed & Hlen & Hpl).
    exists st, ems. split; [assumption|]. split; [assumption|].
    pose proof (packet_expected_range (packet st)).
    unfold PACKET_SIZE. lia.
Qed.

(** C4, as the code has it — A car packet of the short class whose
    second header byte carries the null marker ([byte1 & 0xf0 == 0xf0])
    is expected to be 2 bytes long: the header alone, no data. *)
Theorem null_marker_short_length (p : list byte) :
  PACKET_CAR p <> 0 ->
  PACKET_TYPE p <> CAR_POSITION_UPDATE ->
  PACKET_TYPE p <> CAR_POSITION_HISTORY ->
  Z.land (idx p 1) 0xf0 = 0xf0 ->
  packet_expected p = 2.
Proof.
  intros Hcar Ht0 Ht15 Hnul.
  unfold packet_expected, SHORT_PACKET_LEN, SHORT_PACKET_NUL.
  destruct (Z.eqb_spec (PACKET_CAR p) 0) as [|_]; [contradiction|].
  destruct (Z.eqb_spec (PACKET_TYPE p) CAR_POSITION_UPDATE) as [|_];
    [contradiction|].
  destruct (Z.eqb_spec (PACKET_TYPE p) CAR_POSITION_HISTORY) as [|_];
    [contradiction|].
  cbn [negb]. rewrite Hnul. reflexivity.
Qed.

Lemma null_marker_short_length_witness :
  packet_expected [x21; xf0] = 2.
Proof.
  apply (null_marker_short_length [x21; xf0]);
    vm_compute; congruence.
Defined.

(** C4, as stated, fails: for car 1, type 1 and second byte [0xf0] the
    expected length is 2, not 0. *)
Lemma null_marker_length_not_zero :
  PACKET_CAR [x21; xf0] <> 0 /\
  PACKET_TYPE [x21; xf0] <> 0 /\
  PACKET_TYPE [x21; xf0] <> 15 /\
  Z.land (idx [x21; xf0] 1) 0xf0 = 0xf0 /\
  packet_expected [x21; xf0] <> 0.
Proof. vm_compute. repeat split; congruence. Qed.

(** C7 — System packets. With car field 0 the type code is between 0
    and 15 and selects the length as follows: 3, 5 and 8 give 2; 1, 2, 9
    and 11 give the short length; 7 gives 4 whatever the second byte;
    every other code, the ones the enumeration does not name included,
    gives the long length [(byte1 >> 1) + 2].  Code 7 is the only one
    with a fixed 4: for any other code some packet of that code is
    expected to have another length. *)
Theorem system_packet_classes (p : list byte) :
  PACKET_CAR p = 0 ->
  let t := PACKET_TYPE p in
  0 <= t <= 15 /\
  (t = SYS_STRANGE_A -> packet_expected p = 4) /\
  (t = SYS_UNKNOWN_SPECIAL_A \/ t = SYS_UNKNOWN_SPECIAL_B
   \/ t = SYS_UNKNOWN_SPECIAL_C -> packet_expected p = 2) /\
  (t = SYS_EVENT_ID \/ t = SYS_KEY_FRAME \/ t = SYS_UNKNOWN_SHORT_A
   \/ t = SYS_UNKNOWN_SHORT_B -> packet_expected p = SHORT_PACKET_LEN p) /\
  (~ In t [SYS_EVENT_ID; SYS_KEY_FRAME; SYS_UNKNOWN_SPECIAL_A;
           SYS_UNKNOWN_SPECIAL_B; SYS_STRANGE_A; SYS_UNKNOWN_SPECIAL_C;
           SYS_UNKNOWN_SHORT_A; SYS_UNKNOWN_SHORT_B] ->
   packet_expected p = Z.shiftr (idx p 1) 1 + 2) /\
  (forall t', 0 <= t' <= 15 -> t' <> SYS_STRANGE_A ->
     exists q, PACKET_CAR q = 0 /\ PACKET_TYPE q = t' /\
               packet_expected q <> 4).
Proof.
  intros Hcar t. split; [apply PACKET_TYPE_range|].
  unfold packet_expected. rewrite Hcar. cbn [Z.eqb negb]. fold t.
  unfold SYS_STRANGE_A, SYS_UNKNOWN_SPECIAL_A, SYS_UNKNOWN_SPECIAL_B,
    SYS_UNKNOWN_SPECIAL_C, SYS_EVENT_ID, SYS_KEY_FRAME, SYS_UNKNOWN_SHORT_A,
    SYS_UNKNOWN_SHORT_B, SPECIAL_PACKET_LEN, LONG_PACKET_LEN,
    SPECIAL_PACKET_DATA.
  repeat split.
  - intros ->. reflexivity.
  - intros [-> | [-> | ->]]; reflexivity.
  - intros [-> | [-> | [-> | ->]]]; reflexivity.
  - intros Hnot. cbn [In] in Hnot.
    destruct (Z.eqb_spec t 3); [lia|]. destruct (Z.eqb_spec t 5); [lia|].
    destruct (Z.eqb_spec t 8); [lia|]. destruct (Z.eqb_spec t 1); [lia|].
    destruct (Z.eqb_spec t 2); [lia|]. destruct (Z.eqb_spec t 9); [lia|].
    destruct (Z.eqb_spec t 11); [lia|]. destruct (Z.eqb_spec t 7); [lia|].
    reflexivity.
  - intros t' Ht' Hne.
    assert (Hcases : t' = 0 \/ t' = 1 \/ t' = 2 \/ t' = 3 \/ t' = 4 \/ t' = 5
                     \/ t' = 6 \/ t' = 8 \/ t' = 9 \/ t' = 10 \/ t' = 11
                     \/ t' = 12 \/ t' = 13 \/ t' = 14 \/ t' = 15) by lia.
    clear Ht' Hne.
    repeat (destruct Hcases as [-> | Hcases]); try subst t'.
    + exists [x00; x00]. vm_compute. repeat split; congruence.
    + exists [x20; x00]. vm_compute. repeat split; congruence.
    + exists [x40; x00]. vm_compute. repeat split; congruence.
    + exists [x60; x00]. vm_compute. repeat split; congruence.
    + exists [x80; x00]. vm_compute. repeat split; congruence.
    + exists [xa0; x00]. vm_compute. repeat split; congruence.
    + exists [xc0; x00]. vm_compute. repeat split; congruence.
    + exists [x00; x01]. vm_compute. repeat split; congruence.
    + exists [x20; x01]. vm_compute. repeat split; congruence.
    + exists [x40; x01]. vm_compute. repeat split; congruence.
    + exists [x60; x01]. vm_compute. repeat split; congruence.
    + exists [x80; x01]. vm_compute. repeat split; congruence.
    + exists [xa0; x01]. vm_compute. repeat split; congruence.
    + exists [xc0; x01]. vm_compute. repeat split; congruence.
    + exists [xe0; x01]. vm_compute. repeat split; congruence.
Qed.

Lemma system_packet_classes_witness :
  PACKET_TYPE [xe0; xfe] = SYS_STRANGE_A /\ packet_expected [xe0; xfe] = 4.
Proof.
  split; [reflexivity|].
  apply (system_packet_classes [xe0; xfe]); reflexivity.
Defined.

(** C9 — Car index range. The car field of a header is [byte0 & 0x1f]:
    between 0 and 31 whatever the bytes, so no header decodes to a car
    index from 32 to [MAX_CAR_NUMBER] = 99. *)
Theorem car_index_range (p : list byte) (c : Z) :
  0 <= PACKET_CAR p <= 31 /\
  (32 <= c <= MAX_CAR_NUMBER -> PACKET_CAR p <> c).
Proof.
  pose proof (PACKET_CAR_range p). split; [assumption | lia].
Qed.

Lemma car_index_range_witness :
  32 <= 50 <= MAX_CAR_NUMBER /\ PACKET_CAR [xff; x00] <> 50.
Proof.
  assert (H : 32 <= 50 <= MAX_CAR_NUMBER) by (unfold MAX_CAR_NUMBER; lia).
  split; [exact H|].
  exact (proj2 (car_index_range [xff; x00] 50) H).
Defined.

(** C6 — Header [0x20, 0x10] announces 3 bytes; [0x20, 0x10, 0xab]
    handed over in one block, or as [0x20] and then [0x10, 0xab], is
    completed as one packet in both cases, with the single data byte
    [0xab]. *)
Theorem classification_example :
  packet_expected [x20; x10] = 3 /\
  completed_packets (feed assembler_init [[x20; x10; xab]])
  = Some [[x20; x10; xab]] /\
  completed_packets (feed assembler_init [[x20]; [x10; xab]])
  = Some [[x20; x10; xab]] /\
  payload [x20; x10; xab] = [xab].
Proof. vm_compute. repeat split. Qed.

(** ** Properties of the assembler *)

(** C10 — Conservation and no overshoot. A call of [next_packet] that
    starts with no more bytes held than the header in the buffer
    announces ends normally; [*packet_len] grows by exactly what
    [*buf_len] shrinks by, [*buf] moves on by that many bytes, which
    are the bytes appended to those held; on exit [*packet_len] does
    not exceed the expected length, and the call returns 1 exactly when
    the two are equal, 0 otherwise. *)
Theorem next_packet_conservation (st : assembler) (buf : list byte) :
  length (packet st) = PACKET_SIZE ->
  0 <= packet_len st <= packet_expected (packet st) ->
  exists r st' buf',
    next_packet st buf = Ok (r, st', buf') /\
    0 <= packet_len st' - packet_len st /\
    packet_len st' - packet_len st = buf_len buf - buf_len buf' /\
    buf' = skipn (Z.to_nat (packet_len st' - packet_len st)) buf /\
    buffered st'
    = buffered st ++ firstn (Z.to_nat (packet_len st' - packet_len st)) buf /\
    packet_len st' <= packet_expected (packet st') /\
    (r = 1 <-> packet_len st' = packet_expected (packet st')) /\
    (r = 0 \/ r = 1).
Proof.
  intros Hlen Hpl.
  assert (Hwf : wf st) by (split; assumption).
  pose proof (wf_buffered_length st Hwf) as HB.
  destruct (next_packet_spec st buf Hwf) as (st' & Hwf' & Hres).
  cbv zeta in Hres.
  pose proof (wf_buffered_length st' Hwf') as HB'.
  pose proof (packet_expected_range (packet st')) as HR'.
  pose proof (packet_expected_range (buffered st ++ buf)) as HR.
  assert (Hall : Z.of_nat (length (buffered st ++ buf))
                 = packet_len st + buf_len buf).
  { unfold buf_len. rewrite length_app. lia. }
  unfold buf_len in *.
  set (all := buffered st ++ buf) in *.
  destruct ((Z.of_nat (length all) <? 2)
            || (Z.of_nat (length all) <? packet_expected all)) eqn:Hc.
  - destruct Hres as [Hr Hb]. exists 0, st', []. rewrite Hb in HB'.
    assert (Hk : Z.to_nat (packet_len st' - packet_len st) = length buf)
      by lia.
    rewrite Hk, skipn_all, firstn_all. cbn [length].
    assert (Hne : packet_len st' <> packet_expected (packet st')).
    { apply orb_prop in Hc. destruct Hc as [Hc | Hc]; apply Z.ltb_lt in Hc.
      - lia.
      - destruct (Z.lt_ge_cases (packet_len st') 2) as [|H2]; [lia|].
        rewrite <- (packet_expected_buffered st' H2), Hb. lia. }
    destruct Hwf' as [_ Hpl'].
    repeat split; try assumption; try lia.
  - destruct Hres as (Hr & Hb & Hp).
    apply orb_false_elim in Hc. destruct Hc as [Hc1 Hc2].
    apply Z.ltb_ge in Hc1, Hc2.
    exists 1, st', (skipn (Z.to_nat (packet_expected all - packet_len st)) buf).
    assert (HE : packet_expected (packet st') = packet_expected all).
    { rewrite <- (packet_expected_buffered st') by lia.
      rewrite Hb. apply packet_expected_firstn. lia. }
    assert (Hle : packet_len st <= packet_expected all).
    { destruct (Z.lt_ge_cases (packet_len st) 2) as [|H2]; [lia|].
      unfold all. rewrite packet_expected_app by lia.
      rewrite (packet_expected_buffered st H2). lia. }
    rewrite Hp, HE, length_skipn.
    split; [assumption|]. split; [lia|]. split; [lia|].
    split; [reflexivity|]. split.
    + rewrite Hb. unfold all. rewrite firstn_app.
      rewrite (firstn_all2 (n := Z.to_nat (packet_expected all))) by lia.
      do 2 f_equal. lia.
    + split; [lia|]. split; [tauto | right; reflexivity].
Qed.

Lemma next_packet_conservation_witness :
  exists r st' buf',
    next_packet {| packet := xe3 :: x05 :: repeat x00 127; packet_len := 2 |}
      [x01; x02; x05; x00] = Ok (r, st', buf') /\
    buf' = [x05; x00] /\ r = 1 /\ buffered st' = [xe3; x05; x01; x02].
Proof.
  destruct (next_packet_conservation
              {| packet := xe3 :: x05 :: repeat x00 127; packet_len := 2 |}
              [x01; x02; x05; x00])
    as (r & st' & buf' & Hr & _); [reflexivity | vm_compute; split; congruence |].
  exists r, st', buf'. split; [exact Hr|].
  vm_compute in Hr. injection Hr as <- <- <-.
  repeat split.
Defined.

(** A block that leaves the packet incomplete is kept whole and
    completes nothing. *)
Lemma parse_stream_block_short (st : assembler) (buf : list byte) :
  wf st ->
  Z.of_nat (length (buffered st ++ buf)) < 2 \/
  Z.of_nat (length (buffered st ++ buf))
  < packet_expected (buffered st ++ buf) ->
  exists st', wf st' /\
    parse_stream_block st buf = Ok (st', []) /\
    buffered st' = buffered st ++ buf.
Proof.
  intros Hwf Hshort.
  destruct (next_packet_spec st buf Hwf) as (st' & Hwf' & Hres).
  cbv zeta in Hres.
  replace ((Z.of_nat (length (buffered st ++ buf)) <? 2)
           || (Z.of_nat (length (buffered st ++ buf))
               <? packet_expected (buffered st ++ buf))) with true in Hres.
  - destruct Hres as [Hr Hb]. exists st'. split; [assumption|].
    split; [|assumption].
    unfold parse_stream_block.
    replace (length buf + 2)%nat with (S (S (length buf))) by lia.
    cbn [parse_loop]. rewrite Hr. reflexivity.
  - symmetry. apply orb_true_intro.
    destruct Hshort; [left | right]; now apply Z.ltb_lt.
Qed.

(** A block that ends exactly where the packet ends completes that
    packet and leaves the assembler empty. *)
Lemma parse_stream_block_exact (st : assembler) (buf : list byte) :
  wf st ->
  Z.of_nat (length (buffered st ++ buf))
  = packet_expected (buffered st ++ buf) ->
  exists st' e, wf st' /\
    parse_stream_block st buf = Ok (st', [e]) /\
    completed e = buffered st ++ buf /\
    packet_len st' = 0.
Proof.
  intros Hwf Hexact.
  pose proof (wf_buffered_length st Hwf) as HB.
  pose proof (packet_expected_range (buffered st ++ buf)) as HR.
  destruct (next_packet_spec st buf Hwf) as (st1 & Hwf1 & Hres).
  cbv zeta in Hres.
  replace ((Z.of_nat (length (buffered st ++ buf)) <? 2)
           || (Z.of_nat (length (buffered st ++ buf))
               <? packet_expected (buffered st ++ buf))) with false in Hres.
  2:{ symmetry. apply orb_false_intro; apply Z.ltb_ge; lia. }
  destruct Hres as (Hr & Hb & Hp).
  rewrite skipn_all2 in Hr by (rewrite length_app in Hexact; lia).
  rewrite <- Hexact, Nat2Z.id, firstn_all in Hb.
  destruct (next_packet_spec (restart st1) [] (wf_restart _ Hwf1))
    as (st2 & Hwf2 & Hres2).
  cbv zeta in Hres2. rewrite buffered_restart in Hres2.
  cbn [app length Z.of_nat] in Hres2.
  change (0 <? 2) with true in Hres2. cbn [orb] in Hres2.
  destruct Hres2 as [Hr2 Hb2].
  pose proof (wf_buffered_length st2 Hwf2) as HB2.
  rewrite Hb2 in HB2. cbn [length Z.of_nat] in HB2.
  eexists st2, _. split; [assumption|].
  unfold parse_stream_block.
  replace (length buf + 2)%nat with (S (S (length buf))) by lia.
  cbn [parse_loop]. rewrite Hr. cbn [bind Z.eqb].
  rewrite Hr2. cbn [bind Z.eqb].
  split; [reflexivity|]. cbn [completed]. split; [exact Hb | lia].
Qed.

Section OnePacket.

(** A packet: as long as its own header announces. *)
Variable pkt : list byte.
Hypothesis Hpkt : Z.of_nat (length pkt) = packet_expected pkt.

(** The blocks that make up the rest of the packet complete it, once. *)
Lemma feed_assembles :
  forall (chunks : list (list byte)) (st : assembler),
    wf st ->
    Forall (fun c => c <> []) chunks ->
    buffered st ++ concat chunks = pkt ->
    packet_len st < Z.of_nat (length pkt) ->
    exists st' ems,
      feed st chunks = Ok (st', ems) /\
      map completed ems = [pkt] /\ packet_len st' = 0.
Proof.
  induction chunks as [|c cs IH]; intros st Hwf Hne Hcat Hlt.
  - pose proof (wf_buffered_length st Hwf) as HB.
    cbn in Hcat. rewrite app_nil_r in Hcat. rewrite Hcat in HB. lia.
  - pose proof (wf_buffered_length st Hwf) as HB.
    pose proof (packet_expected_range pkt) as HR.
    inversion Hne as [|? ? Hc Hcs]; subst.
    cbn [concat] in *. rewrite app_assoc in *.
    set (all := buffered st ++ c) in *.
    assert (Hlen : (length all + length (concat cs))%nat
                   = length (all ++ concat cs))
      by (now rewrite length_app).
    assert (HE : 2 <= Z.of_nat (length all) ->
                 packet_expected all = Z.of_nat (length (all ++ concat cs))).
    { intros H2. rewrite Hpkt. symmetry. apply packet_expected_app. lia. }
    cbn [feed].
    destruct (Z.lt_ge_cases (Z.of_nat (length all))
                (Z.of_nat (length (all ++ concat cs)))) as [Hless | Hfull].
    + (* the packet goes on after this block *)
      destruct (parse_stream_block_short st c Hwf) as (st1 & Hwf1 & Hr & Hb).
      { fold all.
        destruct (Z.lt_ge_cases (Z.of_nat (length all)) 2) as [|H2];
          [now left | right]. rewrite (HE H2). exact Hless. }
      rewrite Hr. cbn [bind].
      destruct (IH st1 Hwf1 Hcs) as (st' & ems & Hf & Hm & Hz).
      * now rewrite Hb.
      * pose proof (wf_buffered_length st1 Hwf1) as HB1.
        rewrite Hb in HB1. fold all in HB1. lia.
      * rewrite Hf. cbn [bind]. exists st', ems. auto.
    + (* the packet ends with this block *)
      assert (Hnil : concat cs = []).
      { apply length_zero_iff_nil. lia. }
      assert (Hcs0 : cs = []).
      { destruct cs as [|c' cs']; [reflexivity|].
        inversion Hcs as [|? ? Hc' _]; subst.
        cbn in Hnil. apply app_eq_nil in Hnil. tauto. }
      subst cs. cbn [concat] in *. rewrite app_nil_r in *.
      destruct (parse_stream_block_exact st c Hwf)
        as (st1 & e & Hwf1 & Hr & Hcompl & Hz).
      { fold all. symmetry. rewrite Hpkt. reflexivity. }
      rewrite Hr. cbn [bind feed app]. exists st1, [e].
      split; [reflexivity|]. split; [|assumption].
      cbn [map]. now rewrite Hcompl.
Qed.

End OnePacket.

(** C1 — Split invariance. Take a packet, that is a byte sequence as
    long as its own first two bytes announce, cut it into non-empty
    blocks in any way (one byte each included), and hand the blocks in
    order to [parse_stream_block], starting with an empty assembler:
    every call ends normally, exactly one packet is completed over the
    whole run, its bytes are the sequence, and the assembler is left
    empty. *)
Theorem split_invariance
  (st : assembler) (pkt : list byte) (chunks : list (list byte)) :
  length (packet st) = PACKET_SIZE ->
  packet_len st = 0 ->
  Z.of_nat (length pkt) = packet_expected pkt ->
  concat chunks = pkt ->
  Forall (fun c => c <> []) chunks ->
  exists st' ems,
    feed st chunks = Ok (st', ems) /\
    map completed ems = [pkt] /\
    packet_len st' = 0.
Proof.
  intros Hlen Hzero Hpkt Hcat Hne.
  pose proof (packet_expected_range pkt) as HR.
  assert (Hwf : wf st).
  { split; [assumption|]. rewrite Hzero.
    pose proof (packet_expected_range (packet st)). lia. }
  apply (feed_assembles pkt Hpkt chunks st Hwf Hne).
  - unfold buffered. rewrite Hzero. exact Hcat.
  - lia.
Qed.

Lemma split_invariance_witness :
  exists st' ems,
    feed assembler_init [[xe3]; [x05]; [x01]; [x02]] = Ok (st', ems) /\
    map completed ems = [[xe3; x05; x01; x02]] /\
    packet_len st' = 0.
Proof.
  apply (split_invariance assembler_init [xe3; x05; x01; x02]
           [[xe3]; [x05]; [x01]; [x02]]).
  - reflexivity.
  - reflexivity.
  - reflexivity.
  - reflexivity.
  - repeat constructor; discriminate.
Defined.

(** C5 — Reset. Whatever block is handed to [parse_stream_block], the
    run ends normally and after each packet it completed the assembler
    holds no byte ([packet_len] is 0, so fewer than the 2 of a header);
    from there any further input is framed exactly as from the
    zeroed initial state: same packets completed, same bytes kept.
    What the buffer still contains of the previous packet has no
    effect. *)
Theorem reset_after_packet (st : assembler) (buf : list byte) :
  wf st ->
  exists st' ems,
    parse_stream_block st buf = Ok (st', ems) /\
    Forall (fun e =>
              packet_len (after e) = 0 /\
              buffered (after e) = [] /\
              forall buf2,
                completed_packets (parse_stream_block (after e) buf2) <> None /\
                same_framing (parse_stream_block (after e) buf2)
                             (parse_stream_block assembler_init buf2))
           ems.
Proof.
  intros Hwf.
  destruct (parse_stream_block_total st buf Hwf) as (st' & ems & Hr & _ & Hems).
  exists st', ems. split; [assumption|].
  apply (Forall_impl _ (P := fun e => wf (after e) /\ packet_len (after e) = 0));
    [|exact Hems].
  intros e [Hwfe Hz].
  assert (Hb : buffered (after e) = []) by (unfold buffered; now rewrite Hz).
  split; [assumption|]. split; [assumption|].
  intros buf2. split.
  - destruct (parse_stream_block_total (after e) buf2 Hwfe)
      as (s2 & e2 & Hr2 & _).
    rewrite Hr2. discriminate.
  - unfold parse_stream_block.
    apply parse_loop_indep; [assumption | apply wf_assembler_init | exact Hb].
Qed.

Lemma reset_after_packet_witness :
  exists st' ems,
    parse_stream_block assembler_init [x05; x00; x21] = Ok (st', ems) /\
    map completed ems = [[x05; x00]] /\
    Forall (fun e => packet_len (after e) = 0) ems.
Proof.
  destruct (reset_after_packet assembler_init [x05; x00; x21])
    as (st' & ems & Hr & Hems);
    [split; [reflexivity | vm_compute; split; congruence] |].
  exists st', ems. split; [exact Hr|].
  split.
  - vm_compute in Hr. injection Hr as <- <-. reflexivity.
  - apply (Forall_impl _ (P := fun e =>
              packet_len (after e) = 0 /\
              buffered (after e) = [] /\
              forall buf2,
                completed_packets (parse_stream_block (after e) buf2) <> None /\
                same_framing (parse_stream_block (after e) buf2)
                             (parse_stream_block assembler_init buf2)));
      [|exact Hems].
    intros e He. exact (proj1 He).
Defined.

(** ** Properties of the stream reader *)

(** One goal per path through [read_stream], for a call known to have
    ended with outcome [o]: [H : read_stream r e = Ok o]. *)
Ltac read_stream_paths H :=
  unfold read_stream, fail_stream in H;
  repeat match type of H with
         | context [if ?c then _ else _] => destruct c eqn:?
         | context [parse_stream_block ?s ?b] =>
             destruct (parse_stream_block s b) as [[? ?]| |]; cbn [bind] in H
         end;
  try discriminate; injection H as <-.

(** A call that times out: nothing but the [poll] while the counter is
    below 10, the ping and a counter back at 0 otherwise. *)
Lemma read_stream_idle (r : reader) (e : environment) :
  idle e ->
  read_stream r e
  = Ok (if timer r <? 10
        then {| ret := 1;
                next := {| timer := timer r + 1; framer := framer r |};
                calls := [sys_poll POLLIN 100]; packets := [] |}
        else {| ret := 1;
                next := {| timer := 0; framer := framer r |};
                calls := [sys_poll POLLIN 100; sys_write [x10]];
                packets := [] |}).
Proof.
  intros [Hp Hw]. unfold read_stream. rewrite Hp. cbn [Z.ltb Z.eqb Z.compare].
  destruct (timer r <? 10); [reflexivity|].
  destruct (Z.ltb_spec (write_ret e) 0); [lia | reflexivity].
Qed.

Lemma poll_loop_idle (es : list environment) :
  forall r : reader,
    Forall idle es -> 0 <= timer r <= 10 ->
    exists r' cs,
      poll_loop r es = Ok (r', cs) /\
      filter is_write cs
      = repeat (sys_write [x10])
               (Z.to_nat ((timer r + Z.of_nat (length es)) / 11)) /\
      timer r' = (timer r + Z.of_nat (length es)) mod 11 /\
      framer r' = framer r.
Proof.
  induction es as [|e es IH]; intros r Hidle Ht.
  - exists r, []. cbn [poll_loop length Z.of_nat filter].
    rewrite Z.add_0_r, Z.div_small, Z.mod_small by lia. auto.
  - inversion Hidle as [|? ? He Hes]; subst.
    cbn [poll_loop]. rewrite (read_stream_idle r e He).
    cbn [bind]. rewrite length_cons, Nat2Z.inj_succ.
    destruct (Z.ltb_spec (timer r) 10) as [Hlt | Hge].
    + destruct (IH {| timer := timer r + 1; framer := framer r |} Hes)
        as (r' & cs & Hl & Hf & Htm & Hfr); [cbn; lia|].
      cbn [next calls timer framer] in *. rewrite Hl. cbn [bind].
      exists r', ([sys_poll POLLIN 100] ++ cs).
      split; [reflexivity|]. cbn [app filter is_write].
      replace (timer r + Z.succ (Z.of_nat (length es)))
        with (timer r + 1 + Z.of_nat (length es)) by lia.
      auto.
    + destruct (IH {| timer := 0; framer := framer r |} Hes)
        as (r' & cs & Hl & Hf & Htm & Hfr); [cbn; lia|].
      cbn [next calls timer framer] in *. rewrite Hl. cbn [bind].
      exists r', ([sys_poll POLLIN 100; sys_write [x10]] ++ cs).
      split; [reflexivity|]. cbn [app filter is_write].
      replace (timer r + Z.succ (Z.of_nat (length es)))
        with (0 + Z.of_nat (length es) + 1 * 11) by lia.
      rewrite Z.div_add, Z.mod_add by lia.
      rewrite Z2Nat.inj_add by (try apply Z.div_pos; lia).
      rewrite Nat.add_comm. cbn [Z.to_nat Pos.to_nat Pos.iter_op Nat.add repeat].
      rewrite Hf. auto.
Qed.

(** C3, as the code has it — Keepalive cadence. With nothing coming in,
    [read_stream] writes one keepalive byte, [0x10], every 11th
    consecutive timed-out call: ten calls do nothing but [poll], the
    eleventh writes.  Over [n] such calls started with the counter at
    [t] (from 0 to 10) the writes are [(t + n) / 11] single bytes
    [0x10] and nothing else, and the counter ends at [(t + n) mod 11].
    The counter is 0 after a call that wrote the ping successfully and
    after a call whose [read] returned data; and a call for which
    [poll] reports input only and [read] returns data ends normally,
    with the counter at 0 and the number of bytes read as result. *)
Theorem keepalive_cadence :
  (forall (r : reader) (es : list environment),
      0 <= timer r <= 10 -> Forall idle es ->
      exists r' cs,
        poll_loop r es = Ok (r', cs) /\
        filter is_write cs
        = repeat (sys_write [x10])
                 (Z.to_nat ((timer r + Z.of_nat (length es)) / 11)) /\
        timer r' = (timer r + Z.of_nat (length es)) mod 11) /\
  (forall (r : reader) (e : environment) (o : outcome),
      read_stream r e = Ok o ->
      In (sys_write [x10]) (calls o) -> 0 <= write_ret e ->
      timer (next o) = 0) /\
  (forall (r : reader) (e : environment) (o : outcome),
      read_stream r e = Ok o ->
      In (sys_read 512) (calls o) -> 0 < read_ret e ->
      timer (next o) = 0 /\ ret o = read_ret e) /\
  (forall (r : reader) (e : environment),
      wf (framer r) ->
      0 < poll_ret e ->
      Z.land (poll_revents e) (Z.lor POLLERR POLLNVAL) = 0 ->
      Z.land (poll_revents e) POLLHUP = 0 ->
      Z.land (poll_revents e) POLLIN <> 0 ->
      0 < read_ret e ->
      exists o,
        read_stream r e = Ok o /\ timer (next o) = 0 /\
        ret o = read_ret e /\ wf (framer (next o))).
Proof.
  split; [|split; [|split]].
  - intros r es Ht Hidle.
    destruct (poll_loop_idle es r Hidle Ht) as (r' & cs & H1 & H2 & H3 & _).
    exists r', cs. auto.
  - intros r e o Hr Hin Hw. read_stream_paths Hr; cbn in Hin |- *;
      try reflexivity;
      repeat (destruct Hin as [Hin | Hin]; try discriminate);
      try contradiction; lia.
  - intros r e o Hr Hin Hrd. read_stream_paths Hr; cbn in Hin |- *;
      try (split; reflexivity);
      repeat (destruct Hin as [Hin | Hin]; try discriminate);
      try contradiction; lia.
  - intros r e Hwf Hp Herr Hhup Hin Hrd. unfold read_stream.
    destruct (Z.ltb_spec (poll_ret e) 0); [lia|].
    destruct (Z.eqb_spec (poll_ret e) 0); [lia|].
    rewrite Herr, Hhup. cbn [Z.eqb negb].
    destruct (Z.eqb_spec (Z.land (poll_revents e) POLLIN) 0); [contradiction|].
    cbn [negb].
    destruct (Z.ltb_spec (read_ret e) 0); [lia|].
    destruct (Z.eqb_spec (read_ret e) 0); [lia|].
    destruct (parse_stream_block_total (framer r)
                (firstn (Z.to_nat (read_ret e)) (read_bytes e)) Hwf)
      as (st & ems & Hr & Hwf' & _).
    rewrite Hr. cbn [bind].
    eexists. split; [reflexivity|]. cbn. auto.
Qed.

Lemma keepalive_cadence_witness :
  exists r' cs,
    poll_loop reader_init (repeat timeout_env 11) = Ok (r', cs) /\
    filter is_write cs = [sys_write [x10]] /\
    timer r' = 0.
Proof.
  destruct (proj1 keepalive_cadence reader_init (repeat timeout_env 11))
    as (r' & cs & H1 & H2 & H3).
  - vm_compute. split; congruence.
  - repeat constructor; vm_compute; congruence.
  - exists r', cs. split; [exact H1|]. split; [exact H2 | exact H3].
Defined.

(** C3, as stated, fails: ten consecutive timed-out calls send no
    keepalive byte and leave the counter at 10; twenty send one. *)
Lemma ten_idle_polls_send_nothing :
  Forall idle (repeat timeout_env 10) /\
  (exists r cs,
      poll_loop reader_init (repeat timeout_env 10) = Ok (r, cs) /\
      filter is_write cs = [] /\ timer r = 10) /\
  (exists r cs,
      poll_loop reader_init (repeat timeout_env 20) = Ok (r, cs) /\
      filter is_write cs = [sys_write [x10]]).
Proof.
  split; [|split].
  - repeat constructor; vm_compute; congruence.
  - eexists _, _. vm_compute. repeat split.
  - eexists _, _. vm_compute. repeat split.
Qed.

(** One call that meets a hang-up without error flag, or an end of
    file: the result is 0, the calls made are [poll] and [close] in
    the first case, [poll], [read] and [close] in the second, and the
    counter and the assembler are left as they were. *)
Lemma read_stream_shutdown (r : reader) (e : environment) :
  0 < poll_ret e ->
  Z.land (poll_revents e) (Z.lor POLLERR POLLNVAL) = 0 ->
  Z.land (poll_revents e) POLLHUP <> 0 \/
  (Z.land (poll_revents e) POLLIN <> 0 /\ read_ret e = 0) ->
  exists o,
    read_stream r e = Ok o /\
    ret o = 0 /\ next o = r /\ packets o = [] /\
    calls o = (if Z.land (poll_revents e) POLLHUP =? 0
               then [sys_poll POLLIN 100; sys_read 512; sys_close]
               else [sys_poll POLLIN 100; sys_close]).
Proof.
  intros Hp Herr Hcase. unfold read_stream.
  destruct (Z.ltb_spec (poll_ret e) 0); [lia|].
  destruct (Z.eqb_spec (poll_ret e) 0); [lia|].
  rewrite Herr. cbn [Z.eqb negb].
  destruct (Z.eqb_spec (Z.land (poll_revents e) POLLHUP) 0) as [Hhup | Hhup];
    cbn [negb].
  - destruct Hcase as [Hh | [Hin Hrd]]; [contradiction|].
    destruct (Z.eqb_spec (Z.land (poll_revents e) POLLIN) 0); [contradiction|].
    cbn [negb]. rewrite Hrd. cbn [Z.ltb Z.eqb Z.compare].
    eexists. split; [reflexivity|]. cbn. auto.
  - eexists. split; [reflexivity|]. cbn. auto.
Qed.

(** C8, as stated, fails: a hang-up reported together with [POLLERR]
    takes the error exit, and the call returns -1, not 0. *)
Lemma hangup_with_error_is_failure :
  0 < poll_ret hangup_error_env /\
  Z.land (poll_revents hangup_error_env) POLLHUP <> 0 /\
  exists o,
    read_stream reader_init hangup_error_env = Ok o /\
    ret o = -1 /\ ret o <> 0 /\
    calls o = [sys_poll POLLIN 100; sys_close].
Proof.
  split; [reflexivity|]. split; [vm_compute; congruence|].
  eexists. split; [reflexivity|]. vm_compute. repeat split; congruence.
Qed.

(** ** Framing of arbitrary input *)

Lemma wf_le_expected_all (st : assembler) (buf : list byte) :
  wf st -> packet_len st <= packet_expected (buffered st ++ buf).
Proof.
  intros Hwf. pose proof (wf_buffered_length st Hwf) as HB.
  pose proof (packet_expected_range (buffered st ++ buf)).
  destruct (Z.lt_ge_cases (packet_len st) 2) as [|H2]; [lia|].
  rewrite packet_expected_app by lia.
  rewrite (packet_expected_buffered st H2). destruct Hwf. lia.
Qed.

(** The packet [next_packet] cuts off and the input it leaves, put
    back together. *)
Lemma cut_packet_rejoin (st : assembler) (buf : list byte) :
  wf st ->
  let all := buffered st ++ buf in
  firstn (Z.to_nat (packet_expected all)) all
  ++ skipn (Z.to_nat (packet_expected all - packet_len st)) buf
  = all.
Proof.
  intros Hwf all.
  pose proof (wf_buffered_length st Hwf) as HB.
  pose proof (wf_le_expected_all st buf Hwf) as Hle. fold all in Hle.
  unfold all at 2. rewrite firstn_app.
  rewrite (firstn_all2 (n := Z.to_nat (packet_expected all))) by lia.
  replace (Z.to_nat (packet_expected all) - length (buffered st))%nat
    with (Z.to_nat (packet_expected all - packet_len st)) by lia.
  rewrite <- app_assoc, firstn_skipn. reflexivity.
Qed.

(** What a run of the loop that ends normally has done: the packets it
    completed, followed by the bytes it keeps, are the bytes it held
    followed by its input; each packet is complete and what is kept is
    not. *)
Lemma parse_loop_frames (fuel : nat) :
  forall (st : assembler) (buf : list byte) st' ems,
    wf st ->
    parse_loop fuel st buf = Ok (st', ems) ->
    wf st' /\
    concat (map completed ems) ++ buffered st' = buffered st ++ buf /\
    Forall complete_packet (map completed ems) /\
    partial_packet (buffered st').
Proof.
  induction fuel as [|fuel IH]; intros st buf st' ems Hwf Hrun.
  - discriminate.
  - cbn [parse_loop] in Hrun.
    destruct (next_packet_spec st buf Hwf) as (s1 & Hwf1 & Hres).
    cbv zeta in Hres.
    pose proof (packet_expected_range (buffered st ++ buf)) as HR.
    destruct ((Z.of_nat (length (buffered st ++ buf)) <? 2)
              || (Z.of_nat (length (buffered st ++ buf))
                  <? packet_expected (buffered st ++ buf))) eqn:Hc.
    + destruct Hres as [Hr Hb]. rewrite Hr in Hrun. cbn in Hrun.
      injection Hrun as <- <-. split; [assumption|].
      cbn [map concat app]. split; [assumption|]. split; [constructor|].
      rewrite Hb. unfold partial_packet.
      apply orb_prop in Hc. destruct Hc as [Hc | Hc]; apply Z.ltb_lt in Hc;
        [left | right]; assumption.
    + destruct Hres as (Hr & Hb & Hp). rewrite Hr in Hrun.
      cbn [bind Z.eqb] in Hrun.
      apply orb_false_elim in Hc. destruct Hc as [Hc1 Hc2].
      apply Z.ltb_ge in Hc1, Hc2.
      destruct (parse_loop fuel (restart s1) _) as [[s3 e3]| |] eqn:Hl;
        cbn [bind] in Hrun; try discriminate.
      injection Hrun as <- <-.
      destruct (IH _ _ _ _ (wf_restart _ Hwf1) Hl) as (Hwf3 & Hcat & Hall & Hpart).
      rewrite buffered_restart in Hcat. cbn [app] in Hcat.
      split; [assumption|]. cbn [map concat completed].
      change (firstn (Z.to_nat (packet_len s1)) (packet s1)) with (buffered s1).
      rewrite Hb. split; [|split; [|assumption]].
      * rewrite <- app_assoc, Hcat. apply (cut_packet_rejoin st buf Hwf).
      * constructor; [|assumption]. unfold complete_packet.
        rewrite packet_expected_firstn by lia.
        rewrite length_firstn. lia.
Qed.

Lemma feed_frames (chunks : list (list byte)) :
  forall (st : assembler) st' ems,
    wf st -> partial_packet (buffered st) ->
    feed st chunks = Ok (st', ems) ->
    wf st' /\
    concat (map completed ems) ++ buffered st' = buffered st ++ concat chunks /\
    Forall complete_packet (map completed ems) /\
    partial_packet (buffered st').
Proof.
  induction chunks as [|c cs IH]; intros st st' ems Hwf Hpart Hrun.
  - cbn in Hrun. injection Hrun as <- <-. cbn [map concat app].
    rewrite app_nil_r. split; [assumption|]. split; [reflexivity|].
    split; [constructor | assumption].
  - cbn [feed] in Hrun.
    destruct (parse_stream_block st c) as [[s1 e1]| |] eqn:H1;
      cbn [bind] in Hrun; try discriminate.
    destruct (feed s1 cs) as [[s2 e2]| |] eqn:H2;
      cbn [bind] in Hrun; try discriminate.
    injection Hrun as <- <-.
    destruct (parse_loop_frames _ _ _ _ _ Hwf H1) as (Hwf1 & Hc1 & Ha1 & Hp1).
    destruct (IH _ _ _ Hwf1 Hp1 H2) as (Hwf2 & Hc2 & Ha2 & Hp2).
    split; [assumption|]. rewrite map_app, concat_app.
    split; [|split; [|assumption]].
    + cbn [concat]. rewrite <- app_assoc, Hc2, !app_assoc, Hc1. reflexivity.
    + apply Forall_app. auto.
Qed.

(** A stream is cut into complete packets and a partial rest in one
    way only. *)
Lemma framing_unique_aux :
  forall (ps1 ps2 : list (list byte)) (t1 t2 : list byte),
    Forall complete_packet ps1 -> Forall complete_packet ps2 ->
    partial_packet t1 -> partial_packet t2 ->
    concat ps1 ++ t1 = concat ps2 ++ t2 ->
    ps1 = ps2 /\ t1 = t2.
Proof.
  assert (Hhead : forall p ps t l,
             complete_packet p -> partial_packet l ->
             l = concat (p :: ps) ++ t -> False).
  { intros p ps t l Hp Hl Heq. unfold complete_packet in Hp.
    pose proof (packet_expected_range p).
    cbn [concat] in Heq. rewrite <- app_assoc in Heq.
    assert (HE : packet_expected l = packet_expected p)
      by (rewrite Heq; apply packet_expected_app; lia).
    assert (Hlen : (length p <= length l)%nat)
      by (rewrite Heq, length_app; lia).
    destruct Hl as [Hl | Hl]; lia. }
  induction ps1 as [|p1 ps1 IH]; intros [|p2 ps2] t1 t2 H1 H2 Hp1 Hp2 Heq.
  - cbn [concat app] in Heq. split; [reflexivity | exact Heq].
  - exfalso. inversion H2; subst.
    apply (Hhead p2 ps2 t2 t1); assumption.
  - exfalso. inversion H1; subst.
    apply (Hhead p1 ps1 t1 t2); [assumption | assumption |].
    symmetry. exact Heq.
  - inversion H1 as [|? ? Hc1 Hr1]; inversion H2 as [|? ? Hc2 Hr2]; subst.
    cbn [concat] in Heq. rewrite <- !app_assoc in Heq.
    unfold complete_packet in Hc1, Hc2.
    pose proof (packet_expected_range p1). pose proof (packet_expected_range p2).
    assert (HE : packet_expected p1 = packet_expected p2).
    { rewrite <- (packet_expected_app p1 (concat ps1 ++ t1)) by lia.
      rewrite Heq. apply packet_expected_app. lia. }
    assert (Hp : p1 = p2).
    { assert (Hf : firstn (length p1) (p1 ++ concat ps1 ++ t1)
                   = firstn (length p2) (p2 ++ concat ps2 ++ t2)).
      { rewrite Heq. f_equal. lia. }
      rewrite !firstn_app, !Nat.sub_diag, !firstn_all in Hf.
      cbn [firstn] in Hf. now rewrite !app_nil_r in Hf. }
    subst p2. apply app_inv_head in Heq.
    destruct (IH ps2 t1 t2 Hr1 Hr2 Hp1 Hp2 Heq) as [-> ->]. auto.
Qed.

Lemma wf_of_empty (st : assembler) :
  length (packet st) = PACKET_SIZE -> packet_len st = 0 ->
  wf st /\ buffered st = [] /\ partial_packet (buffered st).
Proof.
  intros Hlen Hz. pose proof (packet_expected_range (packet st)).
  assert (Hb : buffered st = []) by (unfold buffered; now rewrite Hz).
  split; [split; [assumption | lia]|]. split; [assumption|].
  rewrite Hb. left. cbn. lia.
Qed.

(** X1 — No byte is lost, repeated or moved. A call of
    [parse_stream_block] from a well-formed assembler ends normally,
    and the packets it completed, one after the other, followed by the
    bytes it keeps, are the bytes it held followed by the block it was
    given. *)
Theorem framing_conserves_bytes (st : assembler) (buf : list byte) :
  wf st ->
  exists st' ems,
    parse_stream_block st buf = Ok (st', ems) /\
    concat (map completed ems) ++ buffered st' = buffered st ++ buf.
Proof.
  intros Hwf.
  destruct (parse_stream_block_total st buf Hwf) as (st' & ems & Hr & _).
  exists st', ems. split; [assumption|].
  apply (parse_loop_frames _ _ _ _ _ Hwf Hr).
Qed.

Lemma framing_conserves_bytes_witness :
  exists st' ems,
    parse_stream_block assembler_init [x05; x00; x20; x10; xab; xe3]
    = Ok (st', ems) /\
    concat (map completed ems) ++ buffered st'
    = [x05; x00; x20; x10; xab; xe3].
Proof.
  apply (framing_conserves_bytes assembler_init [x05; x00; x20; x10; xab; xe3]).
  split; [reflexivity | vm_compute; split; congruence].
Defined.

(** X2 — Every packet [parse_stream_block] completes is as long as its
    own header announces, between 2 and 129 bytes, so that its data
    bytes are at most [MAX_PACKET_LEN]. *)
Theorem completed_packets_well_formed (st : assembler) (buf : list byte) :
  wf st ->
  exists st' ems,
    parse_stream_block st buf = Ok (st', ems) /\
    Forall (fun p =>
              Z.of_nat (length p) = packet_expected p /\
              2 <= Z.of_nat (length p) <= Z.of_nat PACKET_SIZE /\
              Z.of_nat (length (payload p)) <= MAX_PACKET_LEN)
           (map completed ems).
Proof.
  intros Hwf.
  destruct (parse_stream_block_total st buf Hwf) as (st' & ems & Hr & _).
  exists st', ems. split; [assumption|].
  destruct (parse_loop_frames _ _ _ _ _ Hwf Hr) as (_ & _ & Hall & _).
  apply (Forall_impl _ (P := complete_packet)); [|exact Hall].
  intros p Hp. unfold complete_packet in Hp.
  pose proof (packet_expected_range p).
  unfold payload, MAX_PACKET_LEN, PACKET_SIZE. rewrite length_skipn. lia.
Qed.

Lemma completed_packets_well_formed_witness :
  exists st' ems,
    parse_stream_block assembler_init [x05; x00; x20; x10; xab; xe3]
    = Ok (st', ems) /\
    map completed ems = [[x05; x00]; [x20; x10; xab]].
Proof.
  destruct (completed_packets_well_formed assembler_init
              [x05; x00; x20; x10; xab; xe3])
    as (st' & ems & Hr & _);
    [split; [reflexivity | vm_compute; split; congruence]|].
  exists st', ems. split; [exact Hr|].
  vm_compute in Hr. injection Hr as <- <-. reflexivity.
Defined.

(** X3 — Between two calls the assembler never holds a whole packet:
    after [parse_stream_block] the buffer has its 129 bytes and
    [packet_len] is below 2 or below the length the header in the
    buffer announces. *)
Theorem leftover_is_partial (st : assembler) (buf : list byte) :
  wf st ->
  exists st' ems,
    parse_stream_block st buf = Ok (st', ems) /\
    length (packet st') = PACKET_SIZE /\
    0 <= packet_len st' /\
    (packet_len st' < 2 \/ packet_len st' < packet_expected (packet st')).
Proof.
  intros Hwf.
  destruct (parse_stream_block_total st buf Hwf) as (st' & ems & Hr & _).
  exists st', ems. split; [assumption|].
  destruct (parse_loop_frames _ _ _ _ _ Hwf Hr) as (Hwf' & _ & _ & Hpart).
  pose proof (wf_buffered_length st' Hwf') as HB.
  destruct Hwf' as [Hlen Hpl]. split; [assumption|]. split; [lia|].
  destruct (Z.lt_ge_cases (packet_len st') 2) as [|H2]; [now left | right].
  rewrite <- (packet_expected_buffered st' H2).
  destruct Hpart; lia.
Qed.

Lemma leftover_is_partial_witness :
  exists st' ems,
    parse_stream_block assembler_init [x05; x00; xe3; x05; x01] = Ok (st', ems) /\
    packet_len st' = 3.
Proof.
  destruct (leftover_is_partial assembler_init [x05; x00; xe3; x05; x01])
    as (st' & ems & Hr & _);
    [split; [reflexivity | vm_compute; split; congruence]|].
  exists st', ems. split; [exact Hr|].
  vm_compute in Hr. injection Hr as <- <-. reflexivity.
Defined.

(** X4 — The packet format delimits itself: a byte stream is the
    concatenation of complete packets followed by a partial one in at
    most one way. *)
Theorem framing_unique
  (ps1 ps2 : list (list byte)) (t1 t2 : list byte) :
  Forall complete_packet ps1 -> Forall complete_packet ps2 ->
  partial_packet t1 -> partial_packet t2 ->
  concat ps1 ++ t1 = concat ps2 ++ t2 ->
  ps1 = ps2 /\ t1 = t2.
Proof. apply framing_unique_aux. Qed.

Lemma framing_unique_witness :
  [[x05; x00]; [x20; x10; xab]] = [[x05; x00]; [x20; x10; xab]] /\
  [xe3] = [xe3].
Proof.
  apply (framing_unique [[x05; x00]; [x20; x10; xab]]
           [[x05; x00]; [x20; x10; xab]] [xe3] [xe3]).
  - repeat constructor.
  - repeat constructor.
  - left. cbn. lia.
  - left. cbn. lia.
  - reflexivity.
Defined.

(** X5 — Chunk boundaries do not matter, for any input: two ways of
    cutting the same bytes into blocks (empty blocks included), handed
    to [parse_stream_block] from the same assembler state, both end
    normally, complete the same packets in the same order and keep the
    same bytes. *)
Theorem chunking_irrelevant
  (st : assembler) (chunks1 chunks2 : list (list byte)) :
  wf st ->
  packet_len st < 2 \/ packet_len st < packet_expected (packet st) ->
  concat chunks1 = concat chunks2 ->
  exists s1 e1 s2 e2,
    feed st chunks1 = Ok (s1, e1) /\
    feed st chunks2 = Ok (s2, e2) /\
    map completed e1 = map completed e2 /\
    buffered s1 = buffered s2 /\
    packet_len s1 = packet_len s2.
Proof.
  intros Hwf Hpend Hcat.
  assert (Hpart : partial_packet (buffered st)).
  { pose proof (wf_buffered_length st Hwf) as HB. unfold partial_packet.
    destruct (Z.lt_ge_cases (packet_len st) 2) as [|H2]; [left; lia | right].
    rewrite (packet_expected_buffered st H2). lia. }
  destruct (feed_total chunks1 st Hwf) as (s1 & e1 & H1 & _).
  destruct (feed_total chunks2 st Hwf) as (s2 & e2 & H2 & _).
  exists s1, e1, s2, e2. split; [assumption|]. split; [assumption|].
  destruct (feed_frames _ _ _ _ Hwf Hpart H1) as (Hwf1 & Hc1 & Ha1 & Hp1).
  destruct (feed_frames _ _ _ _ Hwf Hpart H2) as (Hwf2 & Hc2 & Ha2 & Hp2).
  destruct (framing_unique_aux _ _ _ _ Ha1 Ha2 Hp1 Hp2) as [Hm Hb].
  { now rewrite Hc1, Hc2, Hcat. }
  split; [assumption|]. split; [assumption|].
  pose proof (wf_buffered_length s1 Hwf1).
  pose proof (wf_buffered_length s2 Hwf2).
  rewrite Hb in *. lia.
Qed.

Lemma chunking_irrelevant_witness :
  exists s1 e1 s2 e2,
    feed assembler_init [[x05]; []; [x00; x20; x10]; [xab; xe3]] = Ok (s1, e1) /\
    feed assembler_init [[x05; x00; x20; x10; xab; xe3]] = Ok (s2, e2) /\
    map completed e1 = map completed e2 /\
    buffered s1 = buffered s2 /\
    packet_len s1 = packet_len s2.
Proof.
  apply (chunking_irrelevant assembler_init
           [[x05]; []; [x00; x20; x10]; [xab; xe3]]
           [[x05; x00; x20; x10; xab; xe3]]).
  - split; [reflexivity | vm_compute; split; congruence].
  - left. reflexivity.
  - reflexivity.
Defined.

Lemma feed_recovers
  (st : assembler) (pkts : list (list byte)) (tail : list byte)
  (chunks : list (list byte)) :
  length (packet st) = PACKET_SIZE ->
  packet_len st = 0 ->
  Forall complete_packet pkts ->
  partial_packet tail ->
  concat chunks = concat pkts ++ tail ->
  exists st' ems,
    feed st chunks = Ok (st', ems) /\
    map completed ems = pkts /\
    buffered st' = tail /\
    packet_len st' = Z.of_nat (length tail).
Proof.
  intros Hlen Hz Hpk Htail Hcat.
  destruct (wf_of_empty st Hlen Hz) as (Hwf & Hb & Hpart).
  destruct (feed_total chunks st Hwf) as (st' & ems & Hr & _).
  exists st', ems. split; [assumption|].
  destruct (feed_frames _ _ _ _ Hwf Hpart Hr) as (Hwf' & Hc & Ha & Hp).
  rewrite Hb in Hc. cbn [app] in Hc.
  destruct (framing_unique_aux _ _ _ _ Ha Hpk Hp Htail) as [Hm Ht].
  { now rewrite Hc. }
  split; [assumption|]. split; [assumption|].
  rewrite <- (wf_buffered_length st' Hwf'), Ht. reflexivity.
Qed.

(** X6 — A stream of packets is recovered whole. Starting with an
    empty assembler, if the blocks handed over are, end to end, a
    sequence of complete packets followed by a partial one, then
    exactly those packets are completed, in order, and the partial one
    is what the assembler keeps. *)
Theorem stream_of_packets
  (st : assembler) (pkts : list (list byte)) (tail : list byte)
  (chunks : list (list byte)) :
  length (packet st) = PACKET_SIZE ->
  packet_len st = 0 ->
  Forall complete_packet pkts ->
  partial_packet tail ->
  concat chunks = concat pkts ++ tail ->
  exists st' ems,
    feed st chunks = Ok (st', ems) /\
    map completed ems = pkts /\
    buffered st' = tail /\
    packet_len st' = Z.of_nat (length tail).
Proof. apply feed_recovers. Qed.

Lemma stream_of_packets_witness :
  exists st' ems,
    feed assembler_init [[x05]; [x00; x20; x10]; [xab; xe3]] = Ok (st', ems) /\
    map completed ems = [[x05; x00]; [x20; x10; xab]] /\
    buffered st' = [xe3] /\
    packet_len st' = 1.
Proof.
  apply (stream_of_packets assembler_init [[x05; x00]; [x20; x10; xab]] [xe3]
           [[x05]; [x00; x20; x10]; [xab; xe3]]).
  - reflexivity.
  - reflexivity.
  - repeat constructor.
  - left. cbn. lia.
  - reflexivity.
Defined.

(** ** More on the stream reader *)

(** The tests met on a path of [read_stream], as facts about integers. *)
Ltac bool_hyps :=
  repeat match goal with
         | H : negb _ = true |- _ => apply negb_true_iff in H
         | H : negb _ = false |- _ => apply negb_false_iff in H
         | H : (_ <? _) = true |- _ => apply Z.ltb_lt in H
         | H : (_ <? _) = false |- _ => apply Z.ltb_ge in H
         | H : (_ =? _) = true |- _ => apply Z.eqb_eq in H
         | H : (_ =? _) = false |- _ => apply Z.eqb_neq in H
         end.

(** A call of [read_stream] from a well-formed assembler returns, and
    leaves a well-formed assembler. *)
Lemma read_stream_total (r : reader) (e : environment) :
  wf (framer r) ->
  exists o, read_stream r e = Ok o /\ wf (framer (next o)).
Proof.
  intros Hwf. unfold read_stream, fail_stream.
  destruct (parse_stream_block_total (framer r)
              (firstn (Z.to_nat (read_ret e)) (read_bytes e)) Hwf)
    as (st & ems & Hp & Hwf' & _).
  rewrite Hp. cbn [bind].
  repeat match goal with
         | |- context [if ?c then _ else _] => destruct c
         end;
    (eexists; split; [reflexivity | cbn; assumption]).
Qed.

(** What a call that returned has done with the socket. *)
Lemma read_stream_close_spec (r : reader) (e : environment) (o : outcome) :
  read_stream r e = Ok o ->
  (ret o = -1 \/ ret o = 0 \/ 0 < ret o) /\
  filter is_close (calls o) = (if ret o <=? 0 then [sys_close] else []) /\
  (ret o <= 0 -> last (calls o) (sys_poll POLLIN 100) = sys_close) /\
  hd_error (calls o) = Some (sys_poll POLLIN 100).
Proof.
  intros Hr. read_stream_paths Hr; bool_hyps; cbn;
    (split; [lia|]); (split; [|split]);
    try reflexivity; try (intros; lia);
    match goal with
    | |- context [?a <=? 0] => destruct (Z.leb_spec a 0); [lia | reflexivity]
    end.
Qed.

(** X7 — The result of [read_stream] tells whether the socket is still
    open. A call from a well-formed assembler returns; and whenever a
    call returns, the result is -1, 0 or positive; when it is -1 or 0
    the call has closed the socket, once, as the last thing it did;
    when it is positive the socket has not been closed; and the first
    thing the call did is the [poll] of 100 ms. *)
Theorem read_stream_result_and_close (r : reader) (e : environment) :
  (wf (framer r) ->
   exists o, read_stream r e = Ok o /\ wf (framer (next o))) /\
  (forall o,
      read_stream r e = Ok o ->
      (ret o = -1 \/ ret o = 0 \/ 0 < ret o) /\
      filter is_close (calls o) = (if ret o <=? 0 then [sys_close] else []) /\
      (ret o <= 0 -> last (calls o) (sys_poll POLLIN 100) = sys_close) /\
      hd_error (calls o) = Some (sys_poll POLLIN 100)).
Proof.
  split; [apply read_stream_total | apply read_stream_close_spec].
Qed.

Lemma read_stream_result_and_close_witness :
  exists o, read_stream reader_init hangup_error_env = Ok o /\
            filter is_close (calls o) = (if ret o <=? 0 then [sys_close] else []) /\
            hd_error (calls o) = Some (sys_poll POLLIN 100).
Proof.
  destruct (proj1 (read_stream_result_and_close reader_init hangup_error_env))
    as (o & Ho & _).
  - split; [reflexivity | vm_compute; split; congruence].
  - exists o. split; [exact Ho|].
    destruct (proj2 (read_stream_result_and_close reader_init hangup_error_env)
                o Ho) as (_ & H1 & _ & H2).
    split; [exact H1 | exact H2].
Defined.

Lemma read_stream_error_spec (r : reader) (e : environment) (o : outcome) :
  read_stream r e = Ok o -> (ret o = -1 <-> io_failure r e).
Proof.
  unfold io_failure.
  intros Hr. read_stream_paths Hr; bool_hyps; cbn; split; intros H;
    try discriminate; try reflexivity; try lia;
    try (right; left; lia); try (right; right; split; [lia|]; tauto);
    try (exfalso; destruct H as [H | [H | [H0 [H | H]]]]; try lia; tauto).
Qed.

(** A call during which something fails returns, whatever the
    assembler holds. *)
Lemma read_stream_failure_returns (r : reader) (e : environment) :
  io_failure r e -> exists o, read_stream r e = Ok o /\ ret o = -1.
Proof.
  unfold io_failure. intros Hf. unfold read_stream, fail_stream.
  repeat match goal with
         | |- context [if ?c then _ else _] => destruct c eqn:?
         end;
    bool_hyps;
    try (eexists; split; [reflexivity | reflexivity]);
    exfalso; destruct Hf as [H | [H | [H0 [H | H]]]]; try lia; tauto.
Qed.

(** X8 — [read_stream] returns -1 exactly when a system call failed or
    [poll] flagged the socket ([poll] itself failed, or the ping could
    not be written, or [poll] reported [POLLERR] or [POLLNVAL], or the
    [read] made for [POLLIN] failed).  In each of these cases the call
    returns, with -1; a call from a well-formed assembler always
    returns, and with -1 in these cases only; and no call that returns
    gives -1 otherwise. *)
Theorem read_stream_error_iff (r : reader) (e : environment) :
  (io_failure r e -> exists o, read_stream r e = Ok o /\ ret o = -1) /\
  (wf (framer r) ->
   exists o, read_stream r e = Ok o /\ (ret o = -1 <-> io_failure r e)) /\
  (forall o, read_stream r e = Ok o -> (ret o = -1 <-> io_failure r e)).
Proof.
  split; [apply read_stream_failure_returns|].
  split; [|apply read_stream_error_spec].
  intros Hwf. destruct (read_stream_total r e Hwf) as (o & Ho & _).
  exists o. split; [exact Ho | now apply read_stream_error_spec].
Qed.

Lemma read_stream_error_iff_witness :
  (exists o, read_stream reader_init hangup_error_env = Ok o /\ ret o = -1) /\
  (exists o, read_stream reader_init hangup_env = Ok o /\
             (ret o = -1 <-> io_failure reader_init hangup_env)).
Proof.
  split.
  - apply (proj1 (read_stream_error_iff reader_init hangup_error_env)).
    right. right. split; [reflexivity|]. left. vm_compute. congruence.
  - apply (proj1 (proj2 (read_stream_error_iff reader_init hangup_env))).
    split; [reflexivity | vm_compute; split; congruence].
Defined.

(** X9 — The idle counter stays between 0 and 10 over every call that
    does not fail: [static int timer] cannot overflow. *)
Theorem timer_stays_in_range (r : reader) (e : environment) (o : outcome) :
  read_stream r e = Ok o ->
  0 <= timer r <= 10 -> 0 <= ret o ->
  0 <= timer (next o) <= 10.
Proof.
  intros Hr Ht Hret. read_stream_paths Hr; bool_hyps; cbn in *; lia.
Qed.

Lemma timer_stays_in_range_witness :
  exists o, read_stream {| timer := 10; framer := assembler_init |} timeout_env
            = Ok o /\ 0 <= timer (next o) <= 10.
Proof.
  eexists. split; [reflexivity|].
  apply (timer_stays_in_range {| timer := 10; framer := assembler_init |}
           timeout_env _ eq_refl); cbn; lia.
Defined.

(** X10 — Only data touches the packet under assembly: a call of
    [read_stream] that made no [read], or that returned 0 or -1,
    leaves the assembler as it was and completes no packet. *)
Theorem assembler_untouched_without_data
  (r : reader) (e : environment) (o : outcome) :
  read_stream r e = Ok o ->
  ~ In (sys_read 512) (calls o) \/ ret o <= 0 ->
  framer (next o) = framer r /\ packets o = [].
Proof.
  intros Hr Hno. read_stream_paths Hr; bool_hyps; cbn in *;
    try (split; reflexivity).
  exfalso. destruct Hno as [Hno | Hno]; [apply Hno; tauto | lia].
Qed.

Lemma assembler_untouched_without_data_witness :
  exists o,
    read_stream {| timer := 10;
                   framer := {| packet := xe3 :: x05 :: repeat x00 127;
                                packet_len := 2 |} |} timeout_env = Ok o /\
    packet_len (framer (next o)) = 2 /\ packets o = [].
Proof.
  eexists. split; [reflexivity|].
  destruct (assembler_untouched_without_data
              {| timer := 10;
                 framer := {| packet := xe3 :: x05 :: repeat x00 127;
                              packet_len := 2 |} |} timeout_env _ eq_refl)
    as [H1 H2].
  - left. vm_compute. intros [H | [H | []]]; discriminate.
  - split; [now rewrite H1 | exact H2].
Defined.

(** X11 — What [read_stream] sends and when it reads. It writes only
    the keepalive byte, only in a call where [poll] timed out with the
    counter at 10 or more, and such a call does not read; it reads
    only when [poll] reported [POLLIN] without [POLLERR], [POLLNVAL]
    or [POLLHUP], and then asks for 512 bytes. *)
Theorem read_stream_io_discipline (r : reader) (e : environment) (o : outcome) :
  read_stream r e = Ok o ->
  (forall d, In (sys_write d) (calls o) ->
             d = [x10] /\ poll_ret e = 0 /\ 10 <= timer r /\
             forall n, ~ In (sys_read n) (calls o)) /\
  (forall n, In (sys_read n) (calls o) ->
             n = 512 /\ 0 < poll_ret e /\
             Z.land (poll_revents e) (Z.lor POLLERR POLLNVAL) = 0 /\
             Z.land (poll_revents e) POLLHUP = 0 /\
             Z.land (poll_revents e) POLLIN <> 0).
Proof.
  intros Hr. read_stream_paths Hr; bool_hyps; cbn; split; intros x Hin;
    repeat (destruct Hin as [Hin | Hin]; try discriminate);
    try contradiction; try injection Hin as <-;
    repeat split; try lia; try assumption;
    intros n Hn; repeat (destruct Hn as [Hn | Hn]; try discriminate);
    contradiction.
Qed.

Lemma read_stream_io_discipline_witness :
  exists o, read_stream {| timer := 10; framer := assembler_init |} timeout_env
            = Ok o /\
            In (sys_write [x10]) (calls o) /\
            forall n, ~ In (sys_read n) (calls o).
Proof.
  eexists. split; [reflexivity|].
  assert (Hin : In (sys_write [x10])
                  [sys_poll POLLIN 100; sys_write [x10]])
    by (right; left; reflexivity).
  split; [exact Hin|].
  destruct (proj1 (read_stream_io_discipline
                     {| timer := 10; framer := assembler_init |}
                     timeout_env _ eq_refl) [x10] Hin) as (_ & _ & _ & H).
  exact H.
Defined.

(** Calls that time out or bring data, one after the other, do to the
    assembler what [parse_stream_block] does with the blocks read, the
    calls that time out leaving it alone. *)
Lemma stream_loop_feed (es : list environment) :
  forall r : reader,
    wf (framer r) ->
    Forall (fun e => times_out e = true \/ data_arrives e = true) es ->
    exists r' ems,
      stream_loop r es = Ok (r', ems) /\
      feed (framer r) (map block_read (filter data_arrives es))
      = Ok (framer r', ems).
Proof.
  induction es as [|e es IH]; intros r Hwf Hes.
  - exists r, []. split; reflexivity.
  - inversion Hes as [|? ? He Hes']; subst. cbn [stream_loop filter].
    destruct He as [He | He].
    + (* a call that times out *)
      assert (Hidle : idle e).
      { unfold times_out in He. apply andb_prop in He. destruct He as [H1 H2].
        apply Z.eqb_eq in H1. apply Z.leb_le in H2. split; assumption. }
      assert (Hno : data_arrives e = false).
      { unfold data_arrives. destruct Hidle as [-> _]. reflexivity. }
      rewrite Hno, (read_stream_idle r e Hidle). cbn [bind].
      destruct (timer r <? 10); cbn [next packets app].
      * destruct (IH {| timer := timer r + 1; framer := framer r |} Hwf Hes')
          as (r' & ems & H1 & H2).
        rewrite H1. cbn [bind]. exists r', ems. split; [reflexivity | exact H2].
      * destruct (IH {| timer := 0; framer := framer r |} Hwf Hes')
          as (r' & ems & H1 & H2).
        rewrite H1. cbn [bind]. exists r', ems. split; [reflexivity | exact H2].
    + (* a call that reads data *)
      rewrite He. cbn [map feed].
      unfold data_arrives in He.
      repeat (apply andb_prop in He; destruct He as [He ?]).
      bool_hyps.
      unfold read_stream.
      destruct (Z.ltb_spec (poll_ret e) 0); [lia|].
      destruct (Z.eqb_spec (poll_ret e) 0); [lia|].
      destruct (Z.eqb_spec (Z.land (poll_revents e) (Z.lor POLLERR POLLNVAL)) 0);
        [|contradiction].
      destruct (Z.eqb_spec (Z.land (poll_revents e) POLLHUP) 0);
        [|contradiction].
      destruct (Z.eqb_spec (Z.land (poll_revents e) POLLIN) 0);
        [contradiction|].
      cbn [negb].
      destruct (Z.ltb_spec (read_ret e) 0); [lia|].
      destruct (Z.eqb_spec (read_ret e) 0); [lia|].
      fold (block_read e).
      destruct (parse_stream_block_total (framer r) (block_read e) Hwf)
        as (st & ems1 & Hp & Hwf1 & _).
      rewrite Hp. cbn [bind next packets framer].
      destruct (IH {| timer := 0; framer := st |} Hwf1 Hes')
        as (r' & ems & Hloop & Hfeed).
      rewrite Hloop. cbn [bind framer] in *. rewrite Hfeed. cbn [bind].
      exists r', (ems1 ++ ems). split; reflexivity.
Qed.

(** X12 — Time-outs between the reads do not disturb the framing.
    Over a run of calls of [read_stream] each of which either times out
    or reads data, the packets completed and the assembler left are
    those of [parse_stream_block] applied to the blocks read, in
    order; the calls that time out, pings included, change nothing. *)
Theorem timeouts_do_not_disturb_framing
  (r : reader) (es : list environment) :
  wf (framer r) ->
  Forall (fun e => times_out e = true \/ data_arrives e = true) es ->
  exists r' ems,
    stream_loop r es = Ok (r', ems) /\
    feed (framer r) (map block_read (filter data_arrives es))
    = Ok (framer r', ems).
Proof. intros Hwf Hes. now apply stream_loop_feed. Qed.

Lemma timeouts_do_not_disturb_framing_witness :
  exists r' ems,
    stream_loop reader_init
      [timeout_env; data_env [x05; x00; x20]; timeout_env;
       data_env [x10; xab; xe3]] = Ok (r', ems) /\
    feed assembler_init [[x05; x00; x20]; [x10; xab; xe3]]
    = Ok (framer r', ems).
Proof.
  apply (timeouts_do_not_disturb_framing reader_init
           [timeout_env; data_env [x05; x00; x20]; timeout_env;
            data_env [x10; xab; xe3]]).
  - split; [reflexivity | vm_compute; split; congruence].
  - constructor; [left; reflexivity|]. constructor; [right; reflexivity|].
    constructor; [left; reflexivity|]. constructor; [right; reflexivity|].
    constructor.
Defined.

(** X13 — End to end. If the bytes read over such a run, put end to
    end, are a sequence of complete packets followed by a partial
    one, and the assembler was empty at the start, then the run ends
    normally, completes exactly those packets in order, and keeps the
    partial one. *)
Theorem stream_delivers_packets
  (r : reader) (es : list environment)
  (pkts : list (list byte)) (tail : list byte) :
  length (packet (framer r)) = PACKET_SIZE ->
  packet_len (framer r) = 0 ->
  Forall (fun e => times_out e = true \/ data_arrives e = true) es ->
  Forall complete_packet pkts ->
  partial_packet tail ->
  concat (map block_read (filter data_arrives es)) = concat pkts ++ tail ->
  exists r' ems,
    stream_loop r es = Ok (r', ems) /\
    map completed ems = pkts /\
    buffered (framer r') = tail.
Proof.
  intros Hlen Hz Hes Hpk Htail Hcat.
  destruct (wf_of_empty _ Hlen Hz) as (Hwf & _ & _).
  destruct (stream_loop_feed es r Hwf Hes) as (r' & ems & H1 & H2).
  destruct (feed_recovers _ pkts tail _ Hlen Hz Hpk Htail Hcat)
    as (st' & ems' & H3 & Hm & Hb & _).
  rewrite H2 in H3. injection H3 as <- <-.
  exists r', ems. auto.
Qed.

Lemma stream_delivers_packets_witness :
  exists r' ems,
    stream_loop reader_init
      [timeout_env; data_env [x05; x00; x20]; timeout_env;
       data_env [x10; xab; xe3]] = Ok (r', ems) /\
    map completed ems = [[x05; x00]; [x20; x10; xab]] /\
    buffered (framer r') = [xe3].
Proof.
  apply (stream_delivers_packets reader_init
           [timeout_env; data_env [x05; x00; x20]; timeout_env;
            data_env [x10; xab; xe3]]
           [[x05; x00]; [x20; x10; xab]] [xe3]).
  - reflexivity.
  - reflexivity.
  - constructor; [left; reflexivity|]. constructor; [right; reflexivity|].
    constructor; [left; reflexivity|]. constructor; [right; reflexivity|].
    constructor.
  - repeat constructor.
  - left. cbn. lia.
  - reflexivity.
Defined.

(** ** Opening the connection *)

Lemma remove_single (s : Z) : remove Z.eq_dec s [s] = [].
Proof.
  simpl. destruct (Z.eq_dec s s); [reflexivity | contradiction].
Qed.

Lemma connect_loop_none (addrs : list candidate) :
  forall sock : Z,
    sock < 0 ->
    Forall (fun c => connects c = false) addrs ->
    fst (connect_loop sock addrs) < 0 /\
    open_descriptors [] (snd (connect_loop sock addrs)) = [] /\
    filter is_freeaddrinfo (snd (connect_loop sock addrs)) = [] /\
    length (filter is_socket (snd (connect_loop sock addrs))) = length addrs.
Proof.
  induction addrs as [|a rest IH]; intros sock Hs Hall.
  - cbn. auto.
  - inversion Hall as [|? ? Ha Hrest]; subst. cbn [connect_loop].
    unfold connects in Ha.
    destruct (Z.ltb_spec (socket_ret a) 0) as [Hneg | Hpos].
    + destruct (IH (socket_ret a) Hneg Hrest) as (H1 & H2 & H3 & H4).
      destruct (connect_loop (socket_ret a) rest) as [r cs].
      cbn [fst snd open_descriptors filter is_freeaddrinfo is_socket length]
        in *.
      destruct (Z.ltb_spec (socket_ret a) 0); [|lia]. auto.
    + destruct (Z.ltb_spec (connect_ret a) 0) as [Hc | Hc].
      * destruct (IH (-1) ltac:(lia) Hrest) as (H1 & H2 & H3 & H4).
        destruct (connect_loop (-1) rest) as [r cs].
        cbn [fst snd open_descriptors filter is_freeaddrinfo is_socket length]
          in *.
        destruct (Z.ltb_spec (socket_ret a) 0); [lia|].
        rewrite remove_single. auto.
      * apply andb_false_iff in Ha.
        destruct Ha as [Ha | Ha]; apply Z.leb_gt in Ha; lia.
Qed.

Lemma connect_loop_first (pre : list candidate) :
  forall (sock : Z) (a : candidate) (post : list candidate),
    Forall (fun c => connects c = false) pre ->
    connects a = true ->
    fst (connect_loop sock (pre ++ a :: post)) = socket_ret a /\
    open_descriptors [] (snd (connect_loop sock (pre ++ a :: post)))
    = [socket_ret a] /\
    filter is_freeaddrinfo (snd (connect_loop sock (pre ++ a :: post))) = [] /\
    length (filter is_socket (snd (connect_loop sock (pre ++ a :: post))))
    = S (length pre) /\
    last (snd (connect_loop sock (pre ++ a :: post))) net_freeaddrinfo
    = net_connect (socket_ret a).
Proof.
  induction pre as [|c pre IH]; intros sock a post Hpre Ha.
  - unfold connects in Ha. apply andb_prop in Ha. destruct Ha as [H1 H2].
    apply Z.leb_le in H1, H2. cbn [app connect_loop].
    destruct (Z.ltb_spec (socket_ret a) 0); [lia|].
    destruct (Z.ltb_spec (connect_ret a) 0); [lia|].
    cbn [fst snd open_descriptors filter is_freeaddrinfo is_socket length last].
    destruct (Z.ltb_spec (socket_ret a) 0); [lia|]. auto.
  - inversion Hpre as [|? ? Hc Hrest]; subst. cbn [app connect_loop].
    unfold connects in Hc.
    destruct (Z.ltb_spec (socket_ret c) 0) as [Hneg | Hpos].
    + destruct (IH (socket_ret c) a post Hrest Ha) as (H1 & H2 & H3 & H4 & H5).
      destruct (connect_loop (socket_ret c) (pre ++ a :: post)) as [r cs].
      cbn [fst snd open_descriptors filter is_freeaddrinfo is_socket length]
        in *.
      destruct (Z.ltb_spec (socket_ret c) 0); [|lia].
      repeat split; try assumption; try lia.
      destruct cs; [discriminate | exact H5].
    + destruct (Z.ltb_spec (connect_ret c) 0) as [Hcn | Hcn].
      * destruct (IH (-1) a post Hrest Ha) as (H1 & H2 & H3 & H4 & H5).
        destruct (connect_loop (-1) (pre ++ a :: post)) as [r cs].
        cbn [fst snd open_descriptors filter is_freeaddrinfo is_socket length]
          in *.
        destruct (Z.ltb_spec (socket_ret c) 0); [lia|].
        rewrite remove_single.
        repeat split; try assumption; try lia.
        destruct cs; [discriminate | exact H5].
      * apply andb_false_iff in Hc.
        destruct Hc as [Hc | Hc]; apply Z.leb_gt in Hc; lia.
Qed.

(** The addresses either all fail or split at the first that connects. *)
Lemma candidates_split (addrs : list candidate) :
  Forall (fun c => connects c = false) addrs \/
  exists pre a post,
    addrs = pre ++ a :: post /\
    Forall (fun c => connects c = false) pre /\ connects a = true.
Proof.
  induction addrs as [|c rest IH].
  - left. constructor.
  - destruct (connects c) eqn:Hc.
    + right. exists [], c, rest. repeat split; [constructor | assumption].
    + destruct IH as [IH | (pre & a & post & -> & Hpre & Ha)].
      * left. constructor; assumption.
      * right. exists (c :: pre), a, post.
        repeat split; [constructor; assumption | assumption].
Qed.

Lemma open_descriptors_app (cs1 cs2 : list netcall) :
  forall held,
    open_descriptors held (cs1 ++ cs2)
    = open_descriptors (open_descriptors held cs1) cs2.
Proof.
  induction cs1 as [|c cs1 IH]; intros held; [reflexivity|].
  destruct c; cbn [app open_descriptors]; apply IH.
Qed.

Lemma open_stream_unfold (hostname : list byte) (port : Z) (env : resolution) :
  open_stream hostname port env
  = if negb (getaddrinfo_ret env =? 0) then
      (-1, [net_getaddrinfo hostname (sprintf_hu port)])
    else if fst (connect_loop (-1) (res env)) <? 0 then
      (-1, net_getaddrinfo hostname (sprintf_hu port)
           :: snd (connect_loop (-1) (res env)) ++ [net_freeaddrinfo])
    else (fst (connect_loop (-1) (res env)),
          net_getaddrinfo hostname (sprintf_hu port)
          :: snd (connect_loop (-1) (res env))).
Proof.
  unfold open_stream. destruct (negb (getaddrinfo_ret env =? 0)); [reflexivity|].
  destruct (connect_loop (-1) (res env)); reflexivity.
Qed.

(** X14 — [open_stream] returns the socket of the first address on
    which both [socket] and [connect] succeed: when the addresses
    before it all fail, the result is that descriptor, the last call
    made is its [connect], and no later address is tried. *)
Theorem open_stream_first_success
  (hostname : list byte) (port : Z) (env : resolution)
  (pre : list candidate) (a : candidate) (post : list candidate) :
  getaddrinfo_ret env = 0 ->
  res env = pre ++ a :: post ->
  Forall (fun c => connects c = false) pre ->
  connects a = true ->
  fst (open_stream hostname port env) = socket_ret a /\
  0 <= socket_ret a /\
  length (filter is_socket (snd (open_stream hostname port env)))
  = S (length pre) /\
  last (snd (open_stream hostname port env)) net_freeaddrinfo
  = net_connect (socket_ret a).
Proof.
  intros Hgai Hres Hpre Ha.
  rewrite open_stream_unfold, Hgai, Hres. cbn [Z.eqb negb].
  destruct (connect_loop_first pre (-1) a post Hpre Ha)
    as (H1 & _ & _ & H4 & H5).
  assert (Hpos : 0 <= socket_ret a).
  { unfold connects in Ha. apply andb_prop in Ha.
    destruct Ha as [Ha _]. now apply Z.leb_le. }
  rewrite H1. destruct (Z.ltb_spec (socket_ret a) 0); [lia|].
  cbn [fst snd filter is_socket].
  split; [reflexivity|]. split; [assumption|]. split; [assumption|].
  destruct (snd (connect_loop (-1) (pre ++ a :: post))) as [|c cs];
    [discriminate | exact H5].
Qed.

Lemma open_stream_first_success_witness :
  fst (open_stream [] 4321
         {| getaddrinfo_ret := 0;
            res := [ {| socket_ret := -1; connect_ret := 0 |};
                     {| socket_ret := 3; connect_ret := -1 |};
                     {| socket_ret := 3; connect_ret := 0 |};
                     {| socket_ret := 4; connect_ret := 0 |} ] |}) = 3.
Proof.
  apply (open_stream_first_success [] 4321
           {| getaddrinfo_ret := 0;
              res := [ {| socket_ret := -1; connect_ret := 0 |};
                       {| socket_ret := 3; connect_ret := -1 |};
                       {| socket_ret := 3; connect_ret := 0 |};
                       {| socket_ret := 4; connect_ret := 0 |} ] |}
           [ {| socket_ret := -1; connect_ret := 0 |};
             {| socket_ret := 3; connect_ret := -1 |} ]
           {| socket_ret := 3; connect_ret := 0 |}
           [ {| socket_ret := 4; connect_ret := 0 |} ]).
  - reflexivity.
  - reflexivity.
  - repeat constructor.
  - reflexivity.
Defined.

(** X15 — [open_stream] returns -1 or a descriptor that is not
    negative, and it returns -1 exactly when the name does not resolve
    or no address of the list lets both [socket] and [connect]
    succeed. *)
Theorem open_stream_failure_iff
  (hostname : list byte) (port : Z) (env : resolution) :
  (fst (open_stream hostname port env) = -1 \/
   0 <= fst (open_stream hostname port env)) /\
  (fst (open_stream hostname port env) = -1 <->
   getaddrinfo_ret env <> 0 \/
   Forall (fun c => connects c = false) (res env)).
Proof.
  rewrite open_stream_unfold.
  destruct (Z.eqb_spec (getaddrinfo_ret env) 0) as [Hgai | Hgai]; cbn [negb].
  2:{ cbn [fst]. split; [now left|]. split; [now left | reflexivity]. }
  destruct (candidates_split (res env))
    as [Hnone | (pre & a & post & Hres & Hpre & Ha)].
  - destruct (connect_loop_none (res env) (-1) ltac:(lia) Hnone) as (H1 & _).
    destruct (Z.ltb_spec (fst (connect_loop (-1) (res env))) 0); [|lia].
    cbn [fst]. split; [now left|]. split; [now right | reflexivity].
  - rewrite Hres.
    destruct (connect_loop_first pre (-1) a post Hpre Ha) as (H1 & _).
    assert (Hpos : 0 <= socket_ret a).
    { unfold connects in Ha. apply andb_prop in Ha.
      destruct Ha as [Ha' _]. now apply Z.leb_le. }
    rewrite H1. destruct (Z.ltb_spec (socket_ret a) 0); [lia|]. cbn [fst].
    split; [now right|]. split; [lia|].
    intros [Hne | Hall]; [contradiction|].
    exfalso. apply Forall_app in Hall. destruct Hall as [_ Hall].
    inversion Hall as [|? ? Hfa _]; subst. congruence.
Qed.

(** X16 — [open_stream] leaks no descriptor: of the sockets it opened,
    the one it returns is the only one still open at the end, and none
    is when it returns -1. *)
Theorem open_stream_no_descriptor_leak
  (hostname : list byte) (port : Z) (env : resolution) :
  open_descriptors [] (snd (open_stream hostname port env))
  = if fst (open_stream hostname port env) <? 0 then []
    else [fst (open_stream hostname port env)].
Proof.
  rewrite open_stream_unfold.
  destruct (Z.eqb_spec (getaddrinfo_ret env) 0) as [Hgai | Hgai]; cbn [negb];
    [|reflexivity].
  destruct (candidates_split (res env))
    as [Hnone | (pre & a & post & Hres & Hpre & Ha)].
  - destruct (connect_loop_none (res env) (-1) ltac:(lia) Hnone)
      as (H1 & H2 & _).
    destruct (Z.ltb_spec (fst (connect_loop (-1) (res env))) 0); [|lia].
    cbn [fst snd open_descriptors Z.ltb Z.compare].
    rewrite open_descriptors_app, H2. reflexivity.
  - rewrite Hres.
    destruct (connect_loop_first pre (-1) a post Hpre Ha) as (H1 & H2 & _).
    assert (Hpos : 0 <= socket_ret a).
    { unfold connects in Ha. apply andb_prop in Ha.
      destruct Ha as [Ha' _]. now apply Z.leb_le. }
    rewrite H1. destruct (Z.ltb_spec (socket_ret a) 0); [lia|].
    cbn [fst snd open_descriptors].
    destruct (Z.ltb_spec (socket_ret a) 0); [lia|]. exact H2.
Qed.

(** X17 — The list of addresses is released with [freeaddrinfo] once
    when the name resolved and no connection could be made, and not at
    all otherwise: not after a failed resolution, and not when a
    socket is returned. *)
Theorem address_list_release
  (hostname : list byte) (port : Z) (env : resolution) :
  filter is_freeaddrinfo (snd (open_stream hostname port env))
  = if (getaddrinfo_ret env =? 0)
       && (fst (open_stream hostname port env) <? 0)
    then [net_freeaddrinfo] else [].
Proof.
  rewrite open_stream_unfold.
  destruct (Z.eqb_spec (getaddrinfo_ret env) 0) as [Hgai | Hgai];
    cbn [negb andb]; [|reflexivity].
  destruct (candidates_split (res env))
    as [Hnone | (pre & a & post & Hres & Hpre & Ha)].
  - destruct (connect_loop_none (res env) (-1) ltac:(lia) Hnone)
      as (H1 & _ & H3 & _).
    destruct (Z.ltb_spec (fst (connect_loop (-1) (res env))) 0); [|lia].
    cbn [fst snd filter is_freeaddrinfo Z.ltb Z.compare].
    rewrite filter_app, H3. reflexivity.
  - rewrite Hres.
    destruct (connect_loop_first pre (-1) a post Hpre Ha)
      as (H1 & _ & H3 & _).
    assert (Hpos : 0 <= socket_ret a).
    { unfold connects in Ha. apply andb_prop in Ha.
      destruct Ha as [Ha' _]. now apply Z.leb_le. }
    rewrite H1. destruct (Z.ltb_spec (socket_ret a) 0); [lia|].
    cbn [fst snd filter is_freeaddrinfo].
    destruct (Z.ltb_spec (socket_ret a) 0); [lia|]. exact H3.
Qed.

Lemma u8_digit_char (d : Z) : 0 <= d <= 9 -> u8 (digit_char d) = 48 + d.
Proof.
  intros Hd.
  assert (Hc : d = 0 \/ d = 1 \/ d = 2 \/ d = 3 \/ d = 4 \/ d = 5 \/ d = 6
               \/ d = 7 \/ d = 8 \/ d = 9) by lia.
  repeat (destruct Hc as [-> | Hc]; [reflexivity|]). subst. reflexivity.
Qed.

Lemma decimal_value_snoc (l : list byte) (c : byte) :
  decimal_value (l ++ [c]) = decimal_value l * 10 + (u8 c - 48).
Proof. unfold decimal_value. rewrite fold_left_app. reflexivity. Qed.

(** With a unit of fuel per bit of [n], the digits are all there: they
    are digits and they denote [n]. *)
Lemma decimal_correct (fuel : nat) :
  forall n, (1 <= fuel)%nat -> 0 <= n < 2 ^ Z.of_nat fuel ->
    decimal_value (decimal fuel n) = n /\
    Forall (fun c => 48 <= u8 c <= 57) (decimal fuel n) /\
    (1 <= length (decimal fuel n))%nat.
Proof.
  induction fuel as [|fuel IH]; intros n Hf Hn.
  - lia.
  - rewrite Nat2Z.inj_succ, Z.pow_succ_r in Hn by lia.
    cbn [decimal]. destruct (Z.ltb_spec n 10) as [Hlt | Hge].
    + assert (Hd : 0 <= n <= 9) by lia.
      pose proof (u8_digit_char n Hd) as Hu.
      unfold decimal_value. cbn [fold_left length]. rewrite Hu.
      split; [lia|]. split; [|lia]. constructor; [lia | constructor].
    + assert (Hq : 0 <= n / 10 < 2 ^ Z.of_nat fuel).
      { split; [apply Z.div_pos; lia | apply Z.div_lt_upper_bound; lia]. }
      assert (Hf' : (1 <= fuel)%nat).
      { destruct fuel; [|lia]. cbn in Hq. lia. }
      destruct (IH _ Hf' Hq) as (Hv & Hall & Hlen).
      pose proof (Z.mod_pos_bound n 10 eq_refl) as Hm.
      pose proof (u8_digit_char (n mod 10) ltac:(lia)) as Hu.
      rewrite decimal_value_snoc, Hv, Hu, length_app. cbn [length].
      split; [pose proof (Z.div_mod n 10); lia|]. split; [|lia].
      apply Forall_app. split; [assumption|].
      constructor; [lia | constructor].
Qed.

(** A number below [10 ^ k] is written with [k] digits at most. *)
Lemma decimal_length (fuel : nat) :
  forall (k : nat) (n : Z),
    (1 <= k)%nat -> 0 <= n < 10 ^ Z.of_nat k ->
    (length (decimal fuel n) <= k)%nat.
Proof.
  induction fuel as [|fuel IH]; intros k n Hk Hn.
  - cbn. lia.
  - cbn [decimal]. destruct (Z.ltb_spec n 10) as [Hlt | Hge].
    + cbn. lia.
    + destruct k as [|k]; [lia|].
      rewrite Nat2Z.inj_succ, Z.pow_succ_r in Hn by lia.
      assert (Hq : 0 <= n / 10 < 10 ^ Z.of_nat k).
      { split; [apply Z.div_pos; lia | apply Z.div_lt_upper_bound; lia]. }
      assert (Hk' : (1 <= k)%nat).
      { destruct k; [|lia]. cbn in Hn. lia. }
      specialize (IH k (n / 10) Hk' Hq).
      rewrite length_app. cbn [length]. lia.
Qed.

(** X18 — The service name fits its buffer. For any [port],
    [sprintf (service, "%hu", port)] writes between 1 and 5 decimal
    digits, which with the terminating 0 fit the 6 bytes of [service];
    the digits denote [port] modulo 65536, and this string is the
    service [getaddrinfo] is called with first of all. *)
Theorem service_fits_buffer
  (hostname : list byte) (port : Z) (env : resolution) :
  1 <= Z.of_nat (length (sprintf_hu port)) <= 5 /\
  Z.of_nat (length (sprintf_hu port)) + 1 <= SERVICE_SIZE /\
  Forall (fun c => 48 <= u8 c <= 57) (sprintf_hu port) /\
  decimal_value (sprintf_hu port) = port mod 65536 /\
  hd_error (snd (open_stream hostname port env))
  = Some (net_getaddrinfo hostname (sprintf_hu port)).
Proof.
  assert (Hhd : hd_error (snd (open_stream hostname port env))
                = Some (net_getaddrinfo hostname (sprintf_hu port))).
  { rewrite open_stream_unfold.
    destruct (negb _); [reflexivity|]. destruct (_ <? 0); reflexivity. }
  set (n := port mod 65536).
  assert (Hn : 0 <= n < 65536) by (apply Z.mod_pos_bound; lia).
  assert (Hfuel : 0 <= n < 2 ^ Z.of_nat (S (Z.to_nat (Z.log2 n)))).
  { split; [lia|]. rewrite Nat2Z.inj_succ, Z2Nat.id by apply Z.log2_nonneg.
    destruct (Z.eq_dec n 0) as [-> | Hnz]; [reflexivity|].
    apply Z.log2_spec. lia. }
  destruct (decimal_correct (S (Z.to_nat (Z.log2 n))) n ltac:(lia) Hfuel)
    as (Hv & Hall & Hlen).
  assert (Hle : (length (decimal (S (Z.to_nat (Z.log2 n))) n) <= 5)%nat).
  { apply decimal_length; [lia|]. change (10 ^ Z.of_nat 5) with 100000. lia. }
  unfold sprintf_hu, SERVICE_SIZE. fold n.
  repeat split; try lia; assumption.
Qed.

(** X19 — The header fields lose nothing of the two header bytes.
    Byte 0 is the car field plus 32 times the low three bits of the
    type; byte 1 is the top bit of the type, plus twice the data
    field, which for a short packet is followed by the length nibble.
    The fields stay in their ranges: type 0 to 15, short data 0 to 7,
    long data 0 to 127. *)
Theorem header_fields_lossless (p : list byte) :
  idx p 0 = PACKET_CAR p + 32 * (PACKET_TYPE p mod 8) /\
  idx p 1 = PACKET_TYPE p / 8 + 2 * SPECIAL_PACKET_DATA p /\
  idx p 1 = PACKET_TYPE p / 8 + 2 * SHORT_PACKET_DATA p
            + 16 * Z.shiftr (idx p 1) 4 /\
  0 <= PACKET_TYPE p <= 15 /\
  0 <= SHORT_PACKET_DATA p <= 7 /\
  0 <= SPECIAL_PACKET_DATA p <= 127.
Proof.
  pose (check := fun a b : byte =>
          let q := [a; b] in
          (idx q 0 =? PACKET_CAR q + 32 * (PACKET_TYPE q mod 8))
          && (idx q 1 =? PACKET_TYPE q / 8 + 2 * SPECIAL_PACKET_DATA q)
          && (idx q 1 =? PACKET_TYPE q / 8 + 2 * SHORT_PACKET_DATA q
                         + 16 * Z.shiftr (idx q 1) 4)
          && (0 <=? PACKET_TYPE q) && (PACKET_TYPE q <=? 15)
          && (0 <=? SHORT_PACKET_DATA q) && (SHORT_PACKET_DATA q <=? 7)
          && (0 <=? SPECIAL_PACKET_DATA q) && (SPECIAL_PACKET_DATA q <=? 127)).
  assert (Hall : forallb (fun a => forallb (check a) all_bytes) all_bytes = true)
    by (vm_compute; reflexivity).
  pose proof (byte_forall2 check Hall (nth 0 p x00) (nth 1 p x00)) as H.
  unfold check in H. cbv zeta in H.
  change (idx [nth 0 p x00; nth 1 p x00] 0) with (idx p 0) in H.
  change (idx [nth 0 p x00; nth 1 p x00] 1) with (idx p 1) in H.
  change (PACKET_CAR [nth 0 p x00; nth 1 p x00]) with (PACKET_CAR p) in H.
  change (PACKET_TYPE [nth 0 p x00; nth 1 p x00]) with (PACKET_TYPE p) in H.
  change (SHORT_PACKET_DATA [nth 0 p x00; nth 1 p x00])
    with (SHORT_PACKET_DATA p) in H.
  change (SPECIAL_PACKET_DATA [nth 0 p x00; nth 1 p x00])
    with (SPECIAL_PACKET_DATA p) in H.
  repeat (apply andb_prop in H; destruct H as [H ?]).
  repeat match goal with
         | Hb : (_ <=? _) = true |- _ => apply Z.leb_le in Hb
         | Hb : (_ =? _) = true |- _ => apply Z.eqb_eq in Hb
         end.
  repeat split; assumption.
Qed.

(** ** Shutdown over the life of a connection *)

(** Calls from a well-formed assembler all return. *)
Lemma poll_rets_total (es : list environment) :
  forall r : reader,
    wf (framer r) -> exists rets, poll_rets r es = Ok rets.
Proof.
  induction es as [|e es IH]; intros r Hwf.
  - exists []. reflexivity.
  - destruct (read_stream_total r e Hwf) as (o & Ho & Hwf').
    destruct (IH (next o) Hwf') as (rs & Hrs).
    exists (ret o :: rs). cbn [poll_rets]. rewrite Ho. cbn [bind].
    rewrite Hrs. reflexivity.
Qed.

(** A run of calls that all returned a positive value has not closed
    the socket, and one more call goes on from the state it left. *)
Lemma poll_loop_open (es : list environment) :
  forall (r : reader) (rets : list Z),
    poll_rets r es = Ok rets ->
    Forall (fun x => 0 < x) rets ->
    exists r' cs,
      poll_loop r es = Ok (r', cs) /\
      filter is_close cs = [] /\
      forall e,
        poll_loop r (es ++ [e])
        = (o <- read_stream r' e ;; Ok (next o, cs ++ calls o)) /\
        poll_rets r (es ++ [e])
        = (o <- read_stream r' e ;; Ok (rets ++ [ret o])).
Proof.
  induction es as [|a es IH]; intros r rets Hrets Hpos.
  - cbn in Hrets. injection Hrets as <-.
    exists r, []. split; [reflexivity|]. split; [reflexivity|].
    intros e. cbn [app poll_loop poll_rets].
    destruct (read_stream r e) as [o| |]; cbn [bind]; [|auto|auto].
    rewrite app_nil_r. split; reflexivity.
  - cbn [poll_rets] in Hrets.
    destruct (read_stream r a) as [o| |] eqn:Ho; cbn [bind] in Hrets;
      try discriminate.
    destruct (poll_rets (next o) es) as [rs| |] eqn:Hrs; cbn [bind] in Hrets;
      try discriminate.
    injection Hrets as <-.
    inversion Hpos as [|? ? Hret Hrest]; subst.
    destruct (IH (next o) rs Hrs Hrest) as (r' & cs & Hl & Hcl & Hnext).
    destruct (read_stream_close_spec r a o Ho) as (_ & Hclose & _).
    destruct (Z.leb_spec (ret o) 0); [lia|].
    exists r', (calls o ++ cs).
    split; [cbn [poll_loop]; rewrite Ho; cbn [bind]; rewrite Hl; reflexivity|].
    split; [rewrite filter_app, Hclose, Hcl; reflexivity|].
    intros e. destruct (Hnext e) as [H1 H2].
    cbn [app poll_loop poll_rets]. rewrite Ho. cbn [bind]. rewrite H1, H2.
    destruct (read_stream r' e) as [o'| |]; cbn [bind]; [|auto|auto].
    rewrite app_assoc. split; reflexivity.
Qed.

(** C8, as the code has it — Shutdown detection. When [poll] reports a
    hang-up with neither [POLLERR] nor [POLLNVAL] set, or reports
    input and [read] then returns 0, [read_stream] returns 0 after
    closing the socket: the calls made are [poll] and [close] in the
    first case, [poll], [read] and [close] in the second, and the
    counter and the assembler are left as they were.  Over the life of
    a connection, that is a run of calls that have all returned a
    positive value followed by such a call, the results are the
    positive values and then 0, the socket is closed exactly once, and
    the [close] is the last call made on it.  From a well-formed
    assembler every run of calls returns. *)
Theorem shutdown_detection :
  (forall (r : reader) (e : environment),
      0 < poll_ret e ->
      Z.land (poll_revents e) (Z.lor POLLERR POLLNVAL) = 0 ->
      Z.land (poll_revents e) POLLHUP <> 0 \/
      (Z.land (poll_revents e) POLLIN <> 0 /\ read_ret e = 0) ->
      exists o,
        read_stream r e = Ok o /\
        ret o = 0 /\ next o = r /\ packets o = [] /\
        calls o = (if Z.land (poll_revents e) POLLHUP =? 0
                   then [sys_poll POLLIN 100; sys_read 512; sys_close]
                   else [sys_poll POLLIN 100; sys_close])) /\
  (forall (r : reader) (es : list environment) (rets : list Z)
          (e : environment),
      poll_rets r es = Ok rets ->
      Forall (fun x => 0 < x) rets ->
      0 < poll_ret e ->
      Z.land (poll_revents e) (Z.lor POLLERR POLLNVAL) = 0 ->
      Z.land (poll_revents e) POLLHUP <> 0 \/
      (Z.land (poll_revents e) POLLIN <> 0 /\ read_ret e = 0) ->
      exists r' cs,
        poll_loop r (es ++ [e]) = Ok (r', cs) /\
        poll_rets r (es ++ [e]) = Ok (rets ++ [0]) /\
        filter is_close cs = [sys_close] /\
        last cs (sys_poll POLLIN 100) = sys_close) /\
  (forall (r : reader) (es : list environment),
      wf (framer r) -> exists rets, poll_rets r es = Ok rets).
Proof.
  split; [exact read_stream_shutdown|]. split; [|intros r es; apply poll_rets_total].
  intros r es rets e Hrets Hpos Hp Herr Hcase.
  destruct (poll_loop_open es r rets Hrets Hpos) as (r' & cs & _ & Hcl & Hnext).
  destruct (Hnext e) as [H1 H2].
  destruct (read_stream_shutdown r' e Hp Herr Hcase)
    as (o & Ho & Hret & _ & _ & Hcalls).
  rewrite Ho in H1, H2. cbn [bind] in H1, H2. rewrite Hret in H2.
  exists (next o), (cs ++ calls o).
  split; [exact H1|]. split; [exact H2|].
  rewrite filter_app, Hcl, Hcalls.
  destruct (Z.land (poll_revents e) POLLHUP =? 0).
  - split; [reflexivity|].
    change [sys_poll POLLIN 100; sys_read 512; sys_close]
      with ([sys_poll POLLIN 100; sys_read 512] ++ [sys_close]).
    rewrite app_assoc. apply last_last.
  - split; [reflexivity|].
    change [sys_poll POLLIN 100; sys_close]
      with ([sys_poll POLLIN 100] ++ [sys_close]).
    rewrite app_assoc. apply last_last.
Qed.

Lemma shutdown_detection_witness :
  (exists o, read_stream reader_init hangup_env = Ok o /\
             ret o = 0 /\ calls o = [sys_poll POLLIN 100; sys_close]) /\
  (exists o, read_stream reader_init end_of_file_env = Ok o /\
             ret o = 0 /\
             calls o = [sys_poll POLLIN 100; sys_read 512; sys_close]) /\
  (exists r' cs,
      poll_loop reader_init
        ([timeout_env; data_env [x05; x00; x20]; timeout_env]
         ++ [hangup_env]) = Ok (r', cs) /\
      poll_rets reader_init
        ([timeout_env; data_env [x05; x00; x20]; timeout_env]
         ++ [hangup_env]) = Ok ([1; 3; 1] ++ [0]) /\
      filter is_close cs = [sys_close] /\
      last cs (sys_poll POLLIN 100) = sys_close).
Proof.
  split; [|split].
  - destruct (proj1 shutdown_detection reader_init hangup_env)
      as (o & H1 & H2 & _ & _ & H3).
    + reflexivity.
    + reflexivity.
    + left. vm_compute. congruence.
    + exists o. split; [exact H1|]. split; [exact H2 | exact H3].
  - destruct (proj1 shutdown_detection reader_init end_of_file_env)
      as (o & H1 & H2 & _ & _ & H3).
    + reflexivity.
    + reflexivity.
    + right. split; [vm_compute; congruence | reflexivity].
    + exists o. split; [exact H1|]. split; [exact H2 | exact H3].
  - apply (proj1 (proj2 shutdown_detection) reader_init
             [timeout_env; data_env [x05; x00; x20]; timeout_env]
             [1; 3; 1] hangup_env).
    + reflexivity.
    + repeat constructor.
    + reflexivity.
    + reflexivity.
    + left. vm_compute. congruence.
Defined.
